(** * Deck-list compiler of yugioh-rush: [generate_deck_pdfs.py]

    A shallow embedding of the deck-list parser ([parse_deck_new_format]),
    the card-name normaliser ([clean_card_name]), the image resolver
    ([find_image_file]) and the paginator ([generate_deck_pdf],
    [create_pdf_page]), followed by the properties established for them.

    Conventions of the embedding.
    - A Python [str] is a [list ascii]; a character stands for the code
      point of the same number, so the model covers text whose code points
      are below 256.  The classes [\d], [\s] and [\w] are those of Python's
      [re] module on [str] patterns, restricted to that range.
    - Regular expressions are syntax trees run by a backtracking matcher
      with the priorities of Python's [re]: greedy repetitions try the
      longest repetition first, lazy ones the shortest, an optional part is
      tried before it is skipped.
    - [os.path.exists] is a parameter [path_exists : str -> bool].
    - Python sets and dicts are stdpp's [gset] and [gmap].
    - The drawing calls of the canvas are kept as data: which slot of the
      page is drawn and whether it shows an image, a text box or nothing.
      Lengths in points and the wrapping of text inside a text box are
      floating-point rendering detail and are left out. *)

From Stdlib Require Import Ascii String NArith.
From stdpp Require Import base decidable option list gmap strings.

Abbreviation str := (list ascii).

(** A Python string literal. *)
Definition py (s : string) : str := list_ascii_of_string s.

Definition nl : ascii := ascii_of_N 10.
Definition dquote : ascii := ascii_of_N 34.

(** ** Character classes *)

Definition code (c : ascii) : N := N_of_ascii c.

Definition between (lo hi : N) (c : ascii) : bool :=
  ((lo <=? code c) && (code c <=? hi))%N.

Definition is_chr (a c : ascii) : bool := Ascii.eqb a c.

(** [\d] *)
Definition is_digit (c : ascii) : bool := between 48 57 c.

(** [\s], also the characters removed by [str.strip()] *)
Definition is_space (c : ascii) : bool :=
  between 9 13 c || between 28 32 c || (code c =? 133)%N || (code c =? 160)%N.

(** [\w]: the characters for which [str.isalnum()] holds, and the underscore *)
Definition is_word (c : ascii) : bool :=
  is_digit c || between 65 90 c || (code c =? 95)%N || between 97 122 c
  || (code c =? 170)%N || between 178 179 c || (code c =? 181)%N
  || between 185 186 c || between 188 190 c || between 192 214 c
  || between 216 246 c || between 248 255 c.

(** [.] without the DOTALL flag *)
Definition is_dot (c : ascii) : bool := negb (is_chr nl c).

(** ** Regular expressions *)

Module Re.

Inductive regex : Type :=
| Eps
| Bol                               (* ^ *)
| Eol                               (* $ *)
| Cls (p : ascii -> bool)           (* one character of a class *)
| Seq (r1 r2 : regex)
| Opt (r : regex)                   (* r? *)
| Star (p : ascii -> bool)          (* c* *)
| Plus (p : ascii -> bool)          (* c+ *)
| PlusLazy (p : ascii -> bool)      (* c+? *)
| Grp (n : nat) (r : regex).        (* capturing group number n *)

Definition Chr (a : ascii) : regex := Cls (is_chr a).
Definition Cat (rs : list regex) : regex := foldr Seq Eps rs.
Definition Lit (s : string) : regex := Cat (Chr <$> py s).

Definition groups := gmap nat str.

Section Run.
Context {R : Type}.

Definition cont := str -> groups -> option R.

Definition orelse (a : option R) (b : unit -> option R) : option R :=
  match a with Some r => Some r | None => b tt end.

Definition one (p : ascii -> bool) (s : str) (g : groups) (k : cont) : option R :=
  match s with
  | c :: t => if p c then k t g else None
  | [] => None
  end.

Fixpoint star (p : ascii -> bool) (s : str) (g : groups) (k : cont) : option R :=
  match s with
  | c :: t => if p c then orelse (star p t g k) (fun _ => k s g) else k s g
  | [] => k [] g
  end.

Fixpoint star_lazy (p : ascii -> bool) (s : str) (g : groups) (k : cont) : option R :=
  orelse (k s g)
    (fun _ => match s with
              | c :: t => if p c then star_lazy p t g k else None
              | [] => None
              end).

(** [run whole r s g k]: match [r] at the front of [s], the rest of a
    subject of length [whole], then continue with [k]. *)
Fixpoint run (whole : nat) (r : regex) (s : str) (g : groups) (k : cont) : option R :=
  match r with
  | Eps => k s g
  | Bol => if (length s =? whole)%nat then k s g else None
  | Eol => match s with
           | [] => k s g
           | [c] => if is_chr nl c then k s g else None
           | _ => None
           end
  | Cls p => one p s g k
  | Seq r1 r2 => run whole r1 s g (fun s' g' => run whole r2 s' g' k)
  | Opt r1 => orelse (run whole r1 s g k) (fun _ => k s g)
  | Star p => star p s g k
  | Plus p => one p s g (fun s' g' => star p s' g' k)
  | PlusLazy p => one p s g (fun s' g' => star_lazy p s' g' k)
  | Grp n r1 =>
      run whole r1 s g
        (fun s' g' => k s' (<[n := take (length s - length s') s]> g'))
  end.
End Run.

(** [re.match(r, s)]: the groups of the match at the start of [s]. *)
Definition re_match (r : regex) (s : str) : option groups :=
  run (length s) r s ∅ (fun _ g => Some g).

(** The text left after a match of [r] at the front of [s]. *)
Definition match_rest (whole : nat) (r : regex) (s : str) : option str :=
  run whole r s ∅ (fun s' _ => Some s').

(** [re.sub(r, repl, s)] scans [s] from the left.  [skip] counts the
    characters still inside the match found last.  A match that consumes
    nothing is treated as no match; the patterns of this program consume at
    least one character. *)
Fixpoint sub_from (whole : nat) (r : regex) (repl : str) (skip : nat) (s : str) : str :=
  match s with
  | [] => []
  | c :: t =>
      match skip with
      | S n => sub_from whole r repl n t
      | O =>
          match match_rest whole r s with
          | Some s' =>
              match (length s - length s')%nat with
              | S n => repl ++ sub_from whole r repl n t
              | O => c :: sub_from whole r repl 0 t
              end
          | None => c :: sub_from whole r repl 0 t
          end
      end
  end.

Definition re_sub (r : regex) (repl : str) (s : str) : str :=
  sub_from (length s) r repl 0 s.

End Re.
Import Re.

(** ** String methods *)

(** [s.replace(a, b)] for one-character [a] and [b] *)
Definition replace (a b : ascii) (s : str) : str :=
  (fun c => if is_chr a c then b else c) <$> s.

Fixpoint lstrip_by (p : ascii -> bool) (s : str) : str :=
  match s with
  | c :: t => if p c then lstrip_by p t else s
  | [] => []
  end.

Definition rstrip_by (p : ascii -> bool) (s : str) : str :=
  reverse (lstrip_by p (reverse s)).

(** [s.rstrip('-')] *)
Definition rstrip (a : ascii) (s : str) : str := rstrip_by (is_chr a) s.

(** [s.strip()] *)
Definition strip (s : str) : str := rstrip_by is_space (lstrip_by is_space s).

(** [int(s)] on a string of decimal digits.  Python's [int] raises
    ValueError on a string of more than [max_str_digits] digits; the
    function below is total and says nothing of that error, so a statement
    that gives the count of a card bounds the length of the digit string. *)
Definition max_str_digits : nat := 4300.
Definition digit_value (c : ascii) : N := (code c - 48)%N.
Definition int (s : str) : N := foldl (fun n c => (10 * n + digit_value c)%N) 0%N s.

(** ** clean_card_name *)

(** [\s*\([^)]*\)] *)
Definition re_paren : regex :=
  Cat [Star is_space; Chr "("; Star (fun c => negb (is_chr ")" c)); Chr ")"].

(** [^\d+\.\s*] *)
Definition re_ordinal : regex :=
  Cat [Bol; Plus is_digit; Chr "."; Star is_space].

(** [[^\w\-]] *)
Definition re_special : regex :=
  Cls (fun c => negb (is_word c || is_chr "-" c)).

(** [-+] *)
Definition re_hyphens : regex := Plus (is_chr "-").

Definition clean_card_name (name : str) : str :=
  let name := re_sub re_paren [] name in
  let name := re_sub re_ordinal [] name in
  let name := replace "'" "-" name in
  let name := replace " " "-" name in
  let name := re_sub re_special [] name in
  let name := re_sub re_hyphens (py "-") name in
  let name := rstrip "-" name in
  name.

(** ** parse_deck_new_format *)

(** The values of [current_type], in the source the strings 'Monster',
    'Spell' and 'Trap'. *)
Inductive card_type : Type := Monster | Spell | Trap.

Global Instance card_type_eq_dec : EqDecision card_type.
Proof. solve_decision. Defined.

(** The string a [card_type] stands for in the source. *)
Definition type_name (t : card_type) : str :=
  match t with
  | Monster => py "Monster"
  | Spell => py "Spell"
  | Trap => py "Trap"
  end.

Record card : Type := Card {
  name : str;
  type : card_type;
  count : N;
  edopro_id : option str
}.

Global Instance card_eq_dec : EqDecision card.
Proof. solve_decision. Defined.

(** The regular expression of the card lines:
    [^\d+\.\s*(.+?)(?:\s*\(EDOPro:\s*([^)]+)\))?\s*(?:\((\d+)\s*[Cc]opies?\))?$] *)
Definition re_card_line : regex :=
  Cat [ Bol; Plus is_digit; Chr "."; Star is_space;
        Grp 1 (PlusLazy is_dot);
        Opt (Cat [ Star is_space; Lit "(EDOPro:"; Star is_space;
                   Grp 2 (Plus (fun c => negb (is_chr ")" c))); Chr ")" ]);
        Star is_space;
        Opt (Cat [ Chr "("; Grp 3 (Plus is_digit); Star is_space;
                   Cls (fun c => is_chr "C" c || is_chr "c" c); Lit "opie";
                   Opt (Chr "s"); Chr ")" ]);
        Eol ].

(** The section headers; [None] for every other line. *)
Definition header (line : str) : option card_type :=
  if decide (line = py "EXTRA DECK:") then Some Monster
  else if decide (line = py "MONSTER CARDS:") then Some Monster
  else if decide (line = py "FUSION MONSTERS:") then Some Monster
  else if decide (line = py "RITUAL MONSTERS:") then Some Monster
  else if decide (line = py "SPELL CARDS:") then Some Spell
  else if decide (line = py "TRAP CARDS:") then Some Trap
  else None.

(** The card a matched line stands for. *)
Definition card_of_match (g : groups) (current_type : card_type) : card :=
  {| name := strip (default [] (g !! 1%nat));
     type := current_type;
     count := match g !! 3%nat with Some d => int d | None => 1%N end;
     edopro_id := strip <$> g !! 2%nat |}.

(** One turn of the loop over the lines: the state is the list [cards]
    and [current_type]. *)
Definition parse_line (st : list card * option card_type) (raw : str)
  : list card * option card_type :=
  let '(cards, current_type) := st in
  let line := strip raw in
  match header line with
  | Some t => (cards, Some t)
  | None =>
      match re_match re_card_line line, current_type with
      | Some g, Some t => (cards ++ [card_of_match g t], current_type)
      | _, _ => (cards, current_type)
      end
  end.

(** [lines] is what [f.readlines()] returns. *)
Definition parse_deck_new_format (lines : list str) : list card :=
  fst (foldl parse_line ([], None) lines).

(** ** get_card_descriptions *)

(** The texts shown for cards that have no image, keyed by card name. *)
Definition get_card_descriptions : gmap str str := list_to_map [
  (py "Blue-Eyes Ultimate Dragon",
   py "Fusion Material: " ++ [dquote] ++ py "Blue-Eyes White Dragon" ++ [dquote] ++ py " + " ++
   [dquote] ++ py "Blue-Eyes White Dragon" ++ [dquote] ++ py " + " ++ [dquote] ++
   py "Blue-Eyes White Dragon" ++ [dquote; nl; nl] ++
   py "This legendary dragon is a powerful engine of destruction. " ++
   py "Virtually invincible, very few have faced this awesome creature " ++
   py "and lived to tell the tale.");
  (py "Absolute Lord of D.",
   py "Level 4 DARK Spellcaster Effect Monster" ++ [nl] ++ py "ATK 1200 DEF 1100" ++
   [nl; nl] ++ py "[REQUIREMENT] During the turn this card is Normal or Special Summoned." ++
   [nl] ++ py "[EFFECT] Excavate the top 4 cards of your Deck and reveal them. " ++
   py "You can choose up to 1 each of a Level 8 LIGHT Dragon monster " ++ py "and " ++
   [dquote] ++ py "The Ultimate Blue-Eyed Legend" ++ [dquote] ++
   py " among the excavated cards and add them to the hand, also, " ++
   py "shuffle the remaining cards back into the Deck.");
  (py "Node of Legend",
   py "Level 4 EARTH Dragon Effect Monster" ++ [nl] ++ py "ATK 1300 DEF 0" ++ [nl; nl] ++
   py "[REQUIREMENT] During the turn this card was Normal Summoned." ++ [nl] ++
   py "[EFFECT] Send the top card of your Deck to the Graveyard. Then, " ++
   py "you can add 1 " ++ [dquote] ++ py "The Origin Stone of Legend" ++ [dquote] ++
   py " or " ++ [dquote] ++ py "Sanctum of Legend" ++ [dquote] ++
   py " from your Graveyard to your hand.");
  (py "Soul Drake",
   py "Level 4 DARK Dragon Effect Monster" ++ [nl] ++ py "ATK 1100 DEF 600" ++ [nl; nl] ++
   py "[REQUIREMENT] During your Main Phase that you Normal Summoned " ++
   py "or Special Summoned this card, send 2 face-up Level 4 or lower " ++
   py "Effect Monsters from your field to the Graveyard." ++ [nl] ++
   py "[EFFECT] Special Summon 1 Level 8 LIGHT Attribute Dragon Type " ++
   py "monster from your Graveyard face-up to your field. Your Level 7 " ++
   py "or lower monsters cannot attack this turn.");
  (py "The Ultimate Blue-Eyed Legend",
   py "Normal Spell Card" ++ [nl; nl] ++
   py "[EFFECT] Fusion Summon a Level 10 or higher Dragon monster by " ++
   py "sending up to 3 Dragon monsters from your hand or field to the " ++
   py "GY, also, during this turn, the monster Special Summoned by " ++
   py "this effect cannot be destroyed by your opponent's effects.");
  (py "Phoenix Dragoon",
   py "Effect Monster (Rush Duel)" ++ [nl; nl] ++ py "Effect text unknown");
  (py "Light Effigy",
   py "Normal Monster (Rush Duel)" ++ [nl; nl; dquote] ++
   py "If you Tribute Summon a LIGHT Normal Monster, you can treat " ++
   py "this 1 monster as 2 Tributes." ++ [dquote; nl; nl] ++
   py "Note: Effect appears to be the same in Rush Duel format.");
  (py "The Fire Dragon",
   py "Normal Monster (Rush Duel)" ++ [nl; nl] ++ py "Used as Tribute material");
  (py "Sylphidra",
   py "Normal Monster (Rush Duel)" ++ [nl] ++ py "ATK 1500 DEF 0 (approximate)");
  (py "Defender of Dragon Sorcerers",
   py "Effect Monster (Rush Duel)" ++ [nl; nl] ++ py "Effect text unknown");
  (py "Sanctum of Legend",
   py "Field Spell Card" ++ [nl; nl] ++ py "[REQUIREMENT] None" ++ [nl] ++
   py "[EFFECT] While this card is face-up in a Field Zone, face-up " ++
   py "Level 8 or higher Dragon monsters gain 500 ATK and face-up " ++
   py "Dragon Legend monsters cannot be destroyed by effects.");
  (py "Dragon's Inferno",
   py "Normal Spell Card" ++ [nl; nl] ++
   py "[REQUIREMENT] You have a face-up Dragon Type monster on your field." ++ [nl] ++
   py "[EFFECT] Destroy 1 Spell/Trap Card on your opponent's field.");
  (py "Treasure of Eyes of Blue",
   py "Normal Trap Card" ++ [nl; nl] ++
   py "[REQUIREMENT] When a monster you control is destroyed by your " ++
   py "opponent's attack or your opponent's effect." ++ [nl] ++
   py "[EFFECT] Choose 1 Level 8 or higher LIGHT Dragon monster in " ++
   py "your GY and Special Summon it to your field face-up, then, if " ++
   py "you control a face-up " ++ [dquote] ++ py "Blue-Eyes White Dragon" ++ [dquote] ++
   py ", you can choose 1 card your opponent controls and destroy it.");
  (py "Blue-Eyes Bright Dragon",
   py "Level 8 Dragon Effect Monster" ++ [nl; nl] ++ py "This card's name becomes " ++
   [dquote] ++ py "Blue-Eyes White Dragon" ++ [dquote] ++ py " while in the hand." ++ [nl] ++
   py "[REQUIREMENT] Send the top card of your Deck to the Graveyard." ++ [nl] ++
   py "[EFFECT] This turn, this card's name becomes " ++ [dquote] ++
   py "Blue-Eyes White Dragon" ++ [dquote] ++
   py " and it gains 500 ATK. Then, if you have a face-up Legend " ++
   py "Normal Monster on your field, you can destroy 1 face-up Level 8 " ++
   py "or lower monster on your opponent's field.");
  (py "Blue-Eyes Vision Dragon",
   py "Level 8 Dragon Effect Monster" ++ [nl; nl] ++
   py "[REQUIREMENT] Send the top card of your Deck to the Graveyard." ++ [nl] ++
   py "[EFFECT] This turn, this card's name becomes " ++ [dquote] ++
   py "Blue-Eyes White Dragon" ++ [dquote] ++ py ", and if you Fusion Summon " ++ [dquote] ++
   py "Blue-Eyes Ultimate Dragon" ++ [dquote] ++
   py ", this face-up card can be treated as 2 materials.") ].

(** ** find_image_file *)

Fixpoint starts_with (p s : str) : bool :=
  match p, s with
  | [], _ => true
  | a :: p', c :: s' => is_chr a c && starts_with p' s'
  | _ :: _, [] => false
  end.

Definition ends_with (p s : str) : bool := starts_with (reverse p) (reverse s).

(** [needle in hay] *)
Fixpoint contains (needle hay : str) : bool :=
  starts_with needle hay ||
  match hay with
  | [] => false
  | _ :: t => contains needle t
  end.

(** [os.path.join(a, b)] of posixpath *)
Definition path_join (a b : str) : str :=
  if starts_with (py "/") b then b
  else if bool_decide (a = []) || ends_with (py "/") a then a ++ b
  else a ++ py "/" ++ b.

(** The truth value of an optional string: [None] and the empty string
    are false. *)
Definition truthy (o : option str) : bool :=
  match o with
  | Some (_ :: _) => true
  | _ => false
  end.

Definition special_mappings : gmap str str := list_to_map [
  (py "Windcaster-Torna", py "Windcaster-Torna.jpg");
  (py "Answerer-the-Demonic-Swordsman", py "Answerer-the-Demonic-Sword.jpg");
  (py "Twin-Edge-Dragon", py "Double-Twin-Dragon.jpg");
  (py "Blue-Eyes-White-Dragon", py "Blue-Eyes-White-Dragon.jpg");
  (py "Dragorite", py "Dragolite.jpg");
  (py "Dragons-Priestess", py "Dragon-s-Priestess.jpg");
  (py "Fire-Dragons-Heatflash", py "Fire-Dragon-s-Heatflash.jpg");
  (py "Wind-Spirit-s-Blessing", py "Mystical-Elf.jpg") ].

Section Resolver.
(** [os.path.exists] *)
Variable path_exists : str -> bool.

(** The name-based part of [find_image_file], from [cleaned_name] on. *)
Definition find_by_name (card_name image_dir : str) : option str :=
  let cleaned_name := clean_card_name card_name in
  let filepath := path_join image_dir (cleaned_name ++ py ".jpg") in
  if path_exists filepath then Some filepath else
  let filepath := path_join image_dir (cleaned_name ++ py "s.jpg") in
  if path_exists filepath then Some filepath else
  let filepath := path_join image_dir (cleaned_name ++ py "-alt-art.jpg") in
  if path_exists filepath then Some filepath else
  match special_mappings !! cleaned_name with
  | Some f =>
      let filepath := path_join image_dir f in
      if path_exists filepath then Some filepath else None
  | None => None
  end.

Definition find_image_file (card_name image_dir : str) (edopro_id : option str)
  : option str :=
  let edopro_filepath := path_join image_dir (default [] edopro_id ++ py ".png") in
  if truthy edopro_id && contains (py "Rush-HD") image_dir && path_exists edopro_filepath
  then Some edopro_filepath
  else find_by_name card_name image_dir.
End Resolver.

(** ** create_pdf_page *)

Record card_item : Type := CardItem {
  item_name : str;
  image_path : option str;
  description : option str
}.

(** What [create_pdf_page] puts into one cell of the grid. *)
Inductive drawing : Type :=
| DrawImage (img_path : str)
| DrawText (card_name description : str)
| DrawNothing.

Record slot : Type := Slot { row : nat; col : nat; content : drawing }.

Section Paginator.
Variable path_exists : str -> bool.

Definition draw_item (item : card_item) : drawing :=
  if truthy (image_path item) && path_exists (default [] (image_path item))
  then DrawImage (default [] (image_path item))
  else if truthy (description item)
  then DrawText (item_name item) (default [] (description item))
  else DrawNothing.

(** The loop over [enumerate(card_items)] stops at [i >= 4]. *)
Definition create_pdf_page (card_items : list card_item) : list slot :=
  imap (fun i item => {| row := i / 2; col := i mod 2; content := draw_item item |})
       (take 4 card_items).

(** ** generate_deck_pdf *)

(** The variables of the grouping loop.  [skipped_images] holds the
    (name, image path) pairs of the duplicate-image messages printed. *)
Record grouping : Type := Grouping {
  monster_cards : list card_item;
  spell_cards : list card_item;
  trap_cards : list card_item;
  seen_cards : gset str;
  seen_images : gset str;
  missing_cards : list str;
  skipped_images : list (str * str)
}.

Definition grouping_init : grouping :=
  {| monster_cards := []; spell_cards := []; trap_cards := [];
     seen_cards := ∅; seen_images := ∅; missing_cards := [];
     skipped_images := [] |}.

(** The [if card['type'] == ...: ....append(card_item)] chain. *)
Definition append_item (t : card_type) (item : card_item) (st : grouping) : grouping :=
  match t with
  | Monster =>
      {| monster_cards := monster_cards st ++ [item]; spell_cards := spell_cards st;
         trap_cards := trap_cards st; seen_cards := seen_cards st;
         seen_images := seen_images st; missing_cards := missing_cards st;
         skipped_images := skipped_images st |}
  | Spell =>
      {| monster_cards := monster_cards st; spell_cards := spell_cards st ++ [item];
         trap_cards := trap_cards st; seen_cards := seen_cards st;
         seen_images := seen_images st; missing_cards := missing_cards st;
         skipped_images := skipped_images st |}
  | Trap =>
      {| monster_cards := monster_cards st; spell_cards := spell_cards st;
         trap_cards := trap_cards st ++ [item]; seen_cards := seen_cards st;
         seen_images := seen_images st; missing_cards := missing_cards st;
         skipped_images := skipped_images st |}
  end.

Definition see_card (n : str) (st : grouping) : grouping :=
  {| monster_cards := monster_cards st; spell_cards := spell_cards st;
     trap_cards := trap_cards st; seen_cards := seen_cards st ∪ {[n]};
     seen_images := seen_images st; missing_cards := missing_cards st;
     skipped_images := skipped_images st |}.

Definition see_image (p : str) (st : grouping) : grouping :=
  {| monster_cards := monster_cards st; spell_cards := spell_cards st;
     trap_cards := trap_cards st; seen_cards := seen_cards st;
     seen_images := seen_images st ∪ {[p]}; missing_cards := missing_cards st;
     skipped_images := skipped_images st |}.

Definition report_missing (n : str) (st : grouping) : grouping :=
  {| monster_cards := monster_cards st; spell_cards := spell_cards st;
     trap_cards := trap_cards st; seen_cards := seen_cards st;
     seen_images := seen_images st; missing_cards := missing_cards st ++ [n];
     skipped_images := skipped_images st |}.

Definition report_skipped (n p : str) (st : grouping) : grouping :=
  {| monster_cards := monster_cards st; spell_cards := spell_cards st;
     trap_cards := trap_cards st; seen_cards := seen_cards st;
     seen_images := seen_images st; missing_cards := missing_cards st;
     skipped_images := skipped_images st ++ [(n, p)] |}.

Variable image_dir : str.

(** One turn of [for card in cards]. *)
Definition group_card (st : grouping) (c : card) : grouping :=
  if decide (name c ∈ seen_cards st) then st else
  let img_path := find_image_file path_exists (name c) image_dir (edopro_id c) in
  let item := {| item_name := name c; image_path := img_path;
                 description := get_card_descriptions !! name c |} in
  if truthy img_path then
    let p := default [] img_path in
    if decide (p ∈ seen_images st) then report_skipped (name c) p st
    else append_item (type c) item (see_image p (see_card (name c) st))
  else if truthy (description item) then
    append_item (type c) item (see_card (name c) st)
  else report_missing (name c) st.

Definition group_cards (cards : list card) : grouping :=
  foldl group_card grouping_init cards.

(** [range(0, n, 4)] *)
Definition range4 (n : nat) : list nat := (fun k => 4 * k) <$> seq 0 ((n + 3) / 4).

(** [l[i:j]] for [0 <= i <= j] *)
Definition slice {A} (l : list A) (i j : nat) : list A := take (j - i) (drop i l).

(** A page of the layout: the section it belongs to and the cards handed
    to [create_pdf_page]. *)
Record page : Type := Page { page_type : card_type; page_cards : list card_item }.

Definition pages_of (t : card_type) (card_list : list card_item) : list page :=
  (fun i => {| page_type := t; page_cards := slice card_list i (i + 4) |})
    <$> range4 (length card_list).

(** The pages in the order of [for card_type, card_list in [...]]. *)
Definition layout_of (st : grouping) : list page :=
  pages_of Monster (monster_cards st) ++ pages_of Spell (spell_cards st)
  ++ pages_of Trap (trap_cards st).

Definition layout (cards : list card) : list page := layout_of (group_cards cards).

(** A page as drawn: its header line and its cells. *)
Record pdf_page : Type := PdfPage { title : str; slots : list slot }.

Record pdf : Type := Pdf {
  pdf_pages : list pdf_page;
  printed_missing : list str;
  printed_skipped : list (str * str)
}.

Definition render (deck_name : str) (pg : page) : pdf_page :=
  {| title := deck_name ++ py " - " ++ type_name (page_type pg) ++ py " Cards";
     slots := create_pdf_page (page_cards pg) |}.

Definition generate_deck_pdf (deck_name : str) (cards : list card) : pdf :=
  let st := group_cards cards in
  {| pdf_pages := render deck_name <$> layout_of st;
     printed_missing := missing_cards st;
     printed_skipped := skipped_images st |}.
End Paginator.

(** ** Notions used in the statements *)

(** The leading ordinal-dot shape of a line: [^\d+\.] *)
Definition re_ordinal_dot : regex := Cat [Bol; Plus is_digit; Chr "."].

(** The cards of a layout, page after page. *)
Definition layout_cards (l : list page) : list card_item :=
  concat (page_cards <$> l).

(** The cards the grouping loop has kept, in the order of the layout. *)
Definition placed (st : grouping) : list card_item :=
  monster_cards st ++ spell_cards st ++ trap_cards st.

(** Two cards that differ at most in their count. *)
Definition same_but_count (c1 c2 : card) : Prop :=
  name c1 = name c2 /\ type c1 = type c2 /\ edopro_id c1 = edopro_id c2.

(** A file system in which exactly the paths of [l] exist. *)
Definition only_files (l : list str) : str -> bool := fun p => bool_decide (p ∈ l).

(** The characters a cleaned name is made of. *)
Definition name_char (c : ascii) : bool := is_word c || is_chr "-" c.

(** No two hyphens in a row. *)
Fixpoint no_double_hyphen (s : str) : Prop :=
  match s with
  | c :: t =>
      (is_chr "-" c = true -> forall d, head t = Some d -> is_chr "-" d = false)
      /\ no_double_hyphen t
  | [] => True
  end.

(** The shape of a cleaned name. *)
Definition normal (s : str) : Prop :=
  Forall (fun c => name_char c = true) s /\ no_double_hyphen s /\ rstrip "-" s = s.

(** The part of the grouping state the layout is made from. *)
Definition core (st : grouping)
  : list card_item * list card_item * list card_item * gset str * gset str :=
  (monster_cards st, spell_cards st, trap_cards st, seen_cards st, seen_images st).

(** What the grouping loop maintains: the two sets hold the names and the
    image paths of the cards kept so far, and neither repeats. *)
Definition grouping_inv (st : grouping) : Prop :=
  (forall n, n ∈ seen_cards st <-> n ∈ item_name <$> placed st)
  /\ (forall p, p ∈ seen_images st <-> p ∈ omap image_path (placed st))
  /\ NoDup (item_name <$> placed st)
  /\ NoDup (omap image_path (placed st)).

(** The five ways a turn of the loop can go. *)
Inductive turn (path_exists : str -> bool) (image_dir : str) (st : grouping) (c : card)
  : grouping -> Prop :=
| turn_seen :
    name c ∈ seen_cards st ->
    turn path_exists image_dir st c st
| turn_duplicate_image p :
    name c ∉ seen_cards st ->
    find_image_file path_exists (name c) image_dir (edopro_id c) = Some p ->
    p ∈ seen_images st ->
    turn path_exists image_dir st c (report_skipped (name c) p st)
| turn_image p :
    name c ∉ seen_cards st ->
    find_image_file path_exists (name c) image_dir (edopro_id c) = Some p ->
    p ∉ seen_images st ->
    turn path_exists image_dir st c
      (append_item (type c)
         {| item_name := name c; image_path := Some p;
            description := get_card_descriptions !! name c |}
         (see_image p (see_card (name c) st)))
| turn_description :
    name c ∉ seen_cards st ->
    find_image_file path_exists (name c) image_dir (edopro_id c) = None ->
    truthy (get_card_descriptions !! name c) = true ->
    turn path_exists image_dir st c
      (append_item (type c)
         {| item_name := name c; image_path := None;
            description := get_card_descriptions !! name c |}
         (see_card (name c) st))
| turn_missing :
    name c ∉ seen_cards st ->
    find_image_file path_exists (name c) image_dir (edopro_id c) = None ->
    truthy (get_card_descriptions !! name c) = false ->
    turn path_exists image_dir st c (report_missing (name c) st).

(** The lists of kept cards only grow at their end. *)
Definition grows (st st' : grouping) : Prop :=
  monster_cards st `prefix_of` monster_cards st'
  /\ spell_cards st `prefix_of` spell_cards st'
  /\ trap_cards st `prefix_of` trap_cards st'
  /\ missing_cards st `prefix_of` missing_cards st'.

(** ** Notions used in further statements *)

(** The files [find_image_file] looks for, in the order it looks for
    them. *)
Definition candidates (card_name image_dir : str) (edopro_id : option str) : list str :=
  let cleaned_name := clean_card_name card_name in
  (if truthy edopro_id && contains (py "Rush-HD") image_dir
   then [path_join image_dir (default [] edopro_id ++ py ".png")] else [])
  ++ [ path_join image_dir (cleaned_name ++ py ".jpg");
       path_join image_dir (cleaned_name ++ py "s.jpg");
       path_join image_dir (cleaned_name ++ py "-alt-art.jpg") ]
  ++ match special_mappings !! cleaned_name with
     | Some f => [path_join image_dir f]
     | None => []
     end.

(** What a state says about a name: it is placed, reported missing, or
    reported as a duplicate image. *)
Definition accounted (st : grouping) (n : str) : Prop :=
  n ∈ item_name <$> placed st \/ n ∈ missing_cards st \/ n ∈ (fst <$> skipped_images st).

(** What the reports and the kept cards of a state are worth, [seen]
    being the cards read so far. *)
Definition reports_sound (path_exists : str -> bool) (image_dir : str)
    (seen : list card) (st : grouping) : Prop :=
  (forall n, n ∈ missing_cards st ->
     exists c, c ∈ seen /\ name c = n
               /\ find_image_file path_exists (name c) image_dir (edopro_id c) = None
               /\ truthy (get_card_descriptions !! n) = false)
  /\ (forall n p, (n, p) ∈ skipped_images st ->
        (exists c, c ∈ seen /\ name c = n
                   /\ find_image_file path_exists (name c) image_dir (edopro_id c) = Some p)
        /\ exists item, item ∈ placed st /\ image_path item = Some p /\ item_name item <> n)
  /\ (forall item, item ∈ placed st ->
        exists c, c ∈ seen /\ name c = item_name item
                  /\ find_image_file path_exists (name c) image_dir (edopro_id c)
                     = image_path item
                  /\ description item = get_card_descriptions !! name c
                  /\ draw_item path_exists item <> DrawNothing).

(** The cells of the grid in the order they are filled: (row, column). *)
Definition grid : list (nat * nat) := [(0, 0); (0, 1); (1, 0); (1, 1)].

(** The cards on the pages of one section of a layout. *)
Definition section_cards (t : card_type) (l : list page) : list card_item :=
  concat (page_cards <$> filter (fun pg => page_type pg = t) l).

(** The list of a section in the grouping state. *)
Definition cards_of (t : card_type) (st : grouping) : list card_item :=
  match t with
  | Monster => monster_cards st
  | Spell => spell_cards st
  | Trap => trap_cards st
  end.

(** ** The text box of create_pdf_page *)

(** [s.split()]: the words of [s], [word] being the word read so far. *)
Fixpoint split_from (word : str) (s : str) : list str :=
  match s with
  | [] => match word with [] => [] | _ => [word] end
  | c :: t =>
      if is_space c
      then match word with [] => split_from [] t | _ => word :: split_from [] t end
      else split_from (word ++ [c]) t
  end.

Definition split (s : str) : list str := split_from [] s.

(** [s.split(sep)] for a one-character [sep], [piece] being the piece read
    so far. *)
Fixpoint split_on_from (sep : ascii) (piece : str) (s : str) : list str :=
  match s with
  | [] => [piece]
  | c :: t =>
      if is_chr sep c then piece :: split_on_from sep [] t
      else split_on_from sep (piece ++ [c]) t
  end.

Definition split_on (sep : ascii) (s : str) : list str := split_on_from sep [] s.

(** The truth value of a string. *)
Definition nonempty (s : str) : bool :=
  match s with [] => false | _ => true end.

(** The loop [for word in words] that fills lines of at most [width]
    characters, and the [if line: ....append(line)] after it. *)
Fixpoint wrap_loop (width : nat) (line : str) (words : list str) : list str :=
  match words with
  | [] => if nonempty line then [line] else []
  | word :: rest =>
      if length (line ++ py " " ++ word) <=? width
      then wrap_loop width (if nonempty line then line ++ py " " ++ word else word) rest
      else (if nonempty line then [line] else []) ++ wrap_loop width word rest
  end.

Definition wrap (width : nat) (words : list str) : list str := wrap_loop width [] words.

(** The lines the card name is drawn in. *)
Definition name_lines (card_name : str) : list str :=
  if 20 <? length card_name then wrap 20 (split card_name) else [card_name].

(** The lines the description is drawn in; [chars_per_line] is
    [int((card_width - 10) / 4.8)]. *)
Definition desc_lines (chars_per_line : nat) (description : str) : list str :=
  concat ((fun paragraph =>
             if bool_decide (strip paragraph = []) then [[]]
             else wrap chars_per_line (split paragraph))
          <$> split_on nl description).

(** ** Card lines *)

(** A card line as the comment in the source shows it:
    "1. Card Name (EDOPro: 160301001) (3 copies)", the identifier and the
    number of copies being optional. *)
Definition id_text (id : option str) : str :=
  match id with Some i => py " (EDOPro: " ++ i ++ py ")" | None => [] end.

Definition copies_text (copies : option str) : str :=
  match copies with Some k => py " (" ++ k ++ py " copies)" | None => [] end.

Definition card_line (ordinal card_name : str) (id copies : option str) : str :=
  ordinal ++ py ". " ++ card_name ++ id_text id ++ copies_text copies.

(** No white space at either end. *)
Definition no_space_around (s : str) : Prop :=
  (forall c, head s = Some c -> is_space c = false)
  /\ (forall c, last s = Some c -> is_space c = false).

(** The groups of a match of [card_line]. *)
Definition card_line_groups (card_name : str) (id copies : option str) : groups :=
  let g := <[1%nat := card_name]> ∅ in
  let g := match id with Some i => <[2%nat := i]> g | None => g end in
  match copies with Some k => <[3%nat := k]> g | None => g end.

(** The continuation of [re_match]. *)
Definition accept : @cont groups := fun _ g => Some g.

(** The two annotations of [re_card_line]. *)
Definition re_edopro : regex :=
  Opt (Cat [ Star is_space; Lit "(EDOPro:"; Star is_space;
             Grp 2 (Plus (fun c => negb (is_chr ")" c))); Chr ")" ]).

Definition re_copies : regex :=
  Opt (Cat [ Chr "("; Grp 3 (Plus is_digit); Star is_space;
             Cls (fun c => is_chr "C" c || is_chr "c" c); Lit "opie";
             Opt (Chr "s"); Chr ")" ]).

(** What follows the name in [re_card_line]. *)
Definition re_annotations : regex := Cat [re_edopro; Star is_space; re_copies; Eol].

(** Whether a regular expression has the capturing group [n]. *)
Fixpoint has_group (n : nat) (r : regex) : bool :=
  match r with
  | Seq r1 r2 => has_group n r1 || has_group n r2
  | Opt r1 => has_group n r1
  | Grp m r1 => bool_decide (m = n) || has_group n r1
  | _ => false
  end.

(** * Properties *)

(** ** The model at work *)

Example parse_plain_line :
  parse_deck_new_format [py "SPELL CARDS:"; py "  3. Dragon's Inferno  "]
  = [ {| name := py "Dragon's Inferno"; type := Spell; count := 1; edopro_id := None |} ].
Proof. vm_compute. reflexivity. Qed.

Example parse_before_header :
  parse_deck_new_format [py "1. Sample Dragon"; py "TRAP CARDS:"] = [].
Proof. vm_compute. reflexivity. Qed.

Example clean_card_name_steps :
  clean_card_name (py "1. Blue-Eyes  White Dragon (Alt) !!--") = py "Blue-Eyes-White-Dragon".
Proof. vm_compute. reflexivity. Qed.

Example five_monsters_two_pages :
  let monster n := {| name := py n; type := Monster; count := 1; edopro_id := None |} in
  let files := only_files (py <$> ["/art/A.jpg"; "/art/B.jpg"; "/art/C.jpg";
                                   "/art/D.jpg"; "/art/E.jpg"])%string in
  (fun pg => (page_type pg, item_name <$> page_cards pg))
    <$> layout files (py "/art") (monster <$> ["A"; "B"; "C"; "D"; "E"])%string
  = [ (Monster, [py "A"; py "B"; py "C"; py "D"]); (Monster, [py "E"]) ].
Proof. vm_compute. reflexivity. Qed.

(** ** The parser *)

Lemma parse_line_header cards cur raw t :
  header (strip raw) = Some t -> parse_line (cards, cur) raw = (cards, Some t).
Proof. intros H. unfold parse_line. now rewrite H. Qed.

Lemma parse_line_skip cards cur raw :
  header (strip raw) = None -> re_match re_card_line (strip raw) = None ->
  parse_line (cards, cur) raw = (cards, cur).
Proof. intros H1 H2. unfold parse_line. now rewrite H1, H2. Qed.

Lemma ordinal_dot_not_header line :
  re_match re_ordinal_dot line <> None -> header line = None.
Proof.
  intros H. unfold header.
  repeat (case_decide; [subst line; exfalso; apply H; vm_compute; reflexivity|]).
  reflexivity.
Qed.

(** C1, as stated, fails: with the label [ID:] the annotation is not
    recognised as an identifier.  It stays in the name, and the card has no
    identifier. *)
Lemma sample_dragon_id_label :
  parse_deck_new_format
    [py "MONSTER CARDS:"; py "1. Sample Dragon (ID: 900001) (2 copies)"]
  = [ {| name := py "Sample Dragon (ID: 900001)"; type := Monster;
         count := 2; edopro_id := None |} ]
  /\ parse_deck_new_format
       [py "MONSTER CARDS:"; py "1. Sample Dragon (ID: 900001) (2 copies)"]
     <> [ {| name := py "Sample Dragon"; type := Monster;
             count := 2; edopro_id := Some (py "900001") |} ].
Proof. split; [vm_compute; reflexivity | vm_compute; discriminate]. Qed.

(** C1, amended: the identifier annotation of a card line is labelled
    [EDOPro:].  The line "1. Sample Dragon (EDOPro: 900001) (2 copies)"
    under the header MONSTER CARDS: gives one card with name
    "Sample Dragon", identifier "900001", count 2 and type Monster; a card
    record has these four fields and no ordinal. *)
Theorem sample_dragon_edopro_label :
  parse_deck_new_format
    [py "MONSTER CARDS:"; py "1. Sample Dragon (EDOPro: 900001) (2 copies)"]
  = [ {| name := py "Sample Dragon"; type := Monster;
         count := 2; edopro_id := Some (py "900001") |} ].
Proof. vm_compute. reflexivity. Qed.

(** C3, as stated, fails: the header EXTRA DECK: selects the same type as
    MONSTER CARDS:, so a card under either header carries the same tag. *)
Lemma extra_deck_same_tag_as_monster :
  header (py "EXTRA DECK:") = header (py "MONSTER CARDS:")
  /\ type <$> parse_deck_new_format [py "EXTRA DECK:"; py "1. Sample Dragon"]
     = type <$> parse_deck_new_format [py "MONSTER CARDS:"; py "1. Sample Dragon"].
Proof. split; vm_compute; reflexivity. Qed.

(** C3, amended: the headers EXTRA DECK:, FUSION MONSTERS: and
    RITUAL MONSTERS: all select the type Monster, as MONSTER CARDS: does;
    a deck that starts with any of them parses as if it started with
    MONSTER CARDS:, and a card line right under EXTRA DECK: gives a card
    of type Monster. *)
Theorem extra_deck_is_monster :
  header (py "EXTRA DECK:") = Some Monster
  /\ header (py "FUSION MONSTERS:") = Some Monster
  /\ header (py "RITUAL MONSTERS:") = Some Monster
  /\ header (py "MONSTER CARDS:") = Some Monster
  /\ (forall rest,
        parse_deck_new_format (py "EXTRA DECK:" :: rest)
        = parse_deck_new_format (py "MONSTER CARDS:" :: rest))
  /\ (forall rest,
        parse_deck_new_format (py "FUSION MONSTERS:" :: rest)
        = parse_deck_new_format (py "MONSTER CARDS:" :: rest))
  /\ (forall rest,
        parse_deck_new_format (py "RITUAL MONSTERS:" :: rest)
        = parse_deck_new_format (py "MONSTER CARDS:" :: rest))
  /\ (forall line,
        Forall (fun c => type c = Monster)
               (parse_deck_new_format [py "EXTRA DECK:"; line])).
Proof.
  assert (forall h rest, header (strip h) = Some Monster ->
            parse_deck_new_format (h :: rest)
            = fst (foldl parse_line ([], Some Monster) rest)) as Hstart.
  { intros h rest Hh. unfold parse_deck_new_format. cbn [foldl].
    now rewrite (parse_line_header [] None h Monster Hh). }
  do 4 (split; [vm_compute; reflexivity|]).
  do 3 (split; [intros rest; rewrite !Hstart by (vm_compute; reflexivity); reflexivity|]).
  intros line. rewrite Hstart by (vm_compute; reflexivity). cbn [foldl].
  unfold parse_line. destruct (header (strip line)); cbn [fst]; [constructor|].
  destruct (re_match re_card_line (strip line)); cbn [fst app]; repeat constructor.
Qed.

(** C8, as stated, fails: a line with the ordinal-dot shape that is not a
    card line leaves no trace.  The result is the one of the deck without
    that line, and the result is nothing but the list of cards. *)
Lemma bare_ordinal_leaves_no_trace :
  re_match re_ordinal_dot (strip (py "1.")) <> None
  /\ re_match re_card_line (strip (py "1.")) = None
  /\ parse_deck_new_format [py "MONSTER CARDS:"; py "1."; py "2. Sample Dragon"]
     = parse_deck_new_format [py "MONSTER CARDS:"; py "2. Sample Dragon"]
  /\ parse_deck_new_format [py "MONSTER CARDS:"; py "1."; py "2. Sample Dragon"]
     = [ {| name := py "Sample Dragon"; type := Monster; count := 1;
            edopro_id := None |} ].
Proof. repeat split; vm_compute; (reflexivity || discriminate). Qed.

(** C8, amended: a line that begins with the ordinal-dot prefix and fails
    the card-line extraction is skipped silently; no diagnostic is
    recorded, the lines after it are parsed as usual, and the result is
    that of the deck without the line. *)
Theorem parse_anomaly_skipped (pre post : list str) (line : str) :
  re_match re_ordinal_dot (strip line) <> None ->
  re_match re_card_line (strip line) = None ->
  parse_deck_new_format (pre ++ line :: post) = parse_deck_new_format (pre ++ post).
Proof.
  intros Hshape Hfail. unfold parse_deck_new_format.
  rewrite !foldl_app. cbn [foldl].
  destruct (foldl parse_line ([], None) pre) as [cards cur].
  rewrite parse_line_skip; auto using ordinal_dot_not_header.
Qed.

Lemma parse_anomaly_skipped_witness :
  parse_deck_new_format ([py "MONSTER CARDS:"] ++ py "1." :: [py "2. Sample Dragon"])
  = parse_deck_new_format ([py "MONSTER CARDS:"] ++ [py "2. Sample Dragon"]).
Proof.
  apply (parse_anomaly_skipped [py "MONSTER CARDS:"] [py "2. Sample Dragon"] (py "1.")).
  - vm_compute. discriminate.
  - vm_compute. reflexivity.
Defined.

(** ** The matcher *)

Lemma Forall_suffix {A} (P : A -> Prop) (t s : list A) :
  t `suffix_of` s -> Forall P s -> Forall P t.
Proof. intros [k ->] H. now apply Forall_app in H. Qed.

Lemma star_fail {R} p s g (k : @cont R) :
  (forall t, t `suffix_of` s -> k t g = None) -> star p s g k = None.
Proof.
  induction s as [|c t IH]; intros H; cbn.
  - apply H. reflexivity.
  - destruct (p c).
    + rewrite IH; [cbn; apply H; reflexivity|].
      intros u Hu. apply H. now apply suffix_cons_r.
    + apply H. reflexivity.
Qed.

(** A greedy repetition followed by nothing takes every leading character
    of the class. *)
Lemma star_all p s (g : groups) :
  star p s g (fun s' _ => Some s') = Some (lstrip_by p s).
Proof.
  induction s as [|c t IH]; cbn; [reflexivity|].
  destruct (p c); [now rewrite IH | reflexivity].
Qed.

Lemma lstrip_by_suffix p s : lstrip_by p s `suffix_of` s.
Proof.
  induction s as [|c t IH]; cbn; [reflexivity|].
  destruct (p c); [now apply suffix_cons_r | reflexivity].
Qed.

Lemma lstrip_by_length p s : length (lstrip_by p s) <= length s.
Proof. apply suffix_length, lstrip_by_suffix. Qed.

Lemma drop_to_suffix {A} (t s : list A) :
  t `suffix_of` s -> drop (length s - length t) s = t.
Proof.
  intros [k ->]. rewrite length_app.
  replace (length k + length t - length t) with (length k) by lia.
  apply drop_app_length.
Qed.

Lemma lstrip_by_drop p s : drop (length s - length (lstrip_by p s)) s = lstrip_by p s.
Proof. apply drop_to_suffix, lstrip_by_suffix. Qed.

Lemma lstrip_by_head p s :
  head (lstrip_by p s) = None \/ exists c, head (lstrip_by p s) = Some c /\ p c = false.
Proof.
  induction s as [|c t IH]; cbn; [now left|].
  destruct (p c) eqn:E; [exact IH | right; exists c; now split].
Qed.

Lemma lstrip_by_id p s : (forall c, head s = Some c -> p c = false) -> lstrip_by p s = s.
Proof. destruct s as [|c t]; cbn; [reflexivity|]. intros H. now rewrite (H c). Qed.

Lemma lstrip_by_idemp p s : lstrip_by p (lstrip_by p s) = lstrip_by p s.
Proof.
  apply lstrip_by_id. intros c Hc.
  destruct (lstrip_by_head p s) as [E | (d & E & Hd)]; congruence.
Qed.

Lemma rstrip_by_idemp p s : rstrip_by p (rstrip_by p s) = rstrip_by p s.
Proof. unfold rstrip_by. now rewrite reverse_involutive, lstrip_by_idemp. Qed.

Lemma rstrip_by_prefix p s : rstrip_by p s `prefix_of` s.
Proof.
  unfold rstrip_by. destruct (lstrip_by_suffix p (reverse s)) as [k Hk].
  exists (reverse k). apply (f_equal reverse) in Hk.
  now rewrite reverse_involutive, reverse_app in Hk.
Qed.

(** ** re.sub *)

Lemma sub_from_drop whole r repl n s :
  sub_from whole r repl n s = sub_from whole r repl 0 (drop n s).
Proof.
  revert n. induction s as [|c t IH]; intros [|n]; cbn [sub_from drop]; try reflexivity.
  - apply IH.
Qed.

Lemma sub_from_id whole r repl s :
  (forall t, t `suffix_of` s -> match_rest whole r t = None) ->
  sub_from whole r repl 0 s = s.
Proof.
  induction s as [|c t IH]; intros H; cbn [sub_from]; [reflexivity|].
  rewrite (H (c :: t)) by reflexivity. f_equal. apply IH.
  intros u Hu. apply H. now apply suffix_cons_r.
Qed.

(** Deleting the characters of a class is a filter. *)
Lemma sub_from_cls whole p s :
  sub_from whole (Cls p) [] 0 s = filter (fun c => p c = false) s.
Proof.
  induction s as [|c t IH]; [reflexivity|].
  cbn [sub_from]. unfold match_rest. cbn [run one].
  rewrite filter_cons. destruct (p c) eqn:E.
  - rewrite decide_False by congruence.
    replace (length (c :: t) - length t) with 1 by (cbn; lia). cbn. apply IH.
  - rewrite decide_True by reflexivity. now rewrite IH.
Qed.

Lemma filter_all {A} (P : A -> Prop) `{forall x, Decision (P x)} (l : list A) :
  Forall P l -> filter P l = l.
Proof.
  induction 1 as [|x l Hx Hl IH]; [reflexivity|].
  rewrite filter_cons, decide_True by assumption. now rewrite IH.
Qed.

(** *** Collapsing runs of hyphens *)

Lemma is_chr_eq a c : is_chr a c = true <-> a = c.
Proof. apply Ascii.eqb_eq. Qed.

Lemma match_rest_hyphens whole c t :
  match_rest whole re_hyphens (c :: t)
  = if is_chr "-" c then Some (lstrip_by (is_chr "-") t) else None.
Proof.
  unfold match_rest, re_hyphens. cbn [run one].
  destruct (is_chr "-" c); [apply star_all | reflexivity].
Qed.

Lemma sub_hyphens_hyphen whole c t :
  is_chr "-" c = true ->
  sub_from whole re_hyphens (py "-") 0 (c :: t)
  = c :: sub_from whole re_hyphens (py "-") 0 (lstrip_by (is_chr "-") t).
Proof.
  intros Hc. cbn [sub_from]. rewrite match_rest_hyphens, Hc.
  pose proof (lstrip_by_length (is_chr "-") t) as Hle.
  replace (length (c :: t) - length (lstrip_by (is_chr "-") t))
    with (S (length t - length (lstrip_by (is_chr "-") t))) by (cbn; lia).
  rewrite sub_from_drop, lstrip_by_drop.
  apply is_chr_eq in Hc. subst c. reflexivity.
Qed.

Lemma sub_hyphens_other whole c t :
  is_chr "-" c = false ->
  sub_from whole re_hyphens (py "-") 0 (c :: t)
  = c :: sub_from whole re_hyphens (py "-") 0 t.
Proof. intros Hc. cbn [sub_from]. now rewrite match_rest_hyphens, Hc. Qed.

Lemma sub_hyphens_spec whole (P : ascii -> Prop) n : forall s,
  length s <= n ->
  let r := sub_from whole re_hyphens (py "-") 0 s in
  (Forall P s -> Forall P r)
  /\ no_double_hyphen r
  /\ (forall d, head r = Some d -> head s = Some d).
Proof.
  induction n as [|n IH]; intros [|c t] Hn; cbn in Hn; try lia;
    try (cbn; repeat split; auto; fail).
  destruct (is_chr "-" c) eqn:Hc.
  - cbn zeta. rewrite sub_hyphens_hyphen by assumption.
    pose proof (lstrip_by_length (is_chr "-") t) as Hle.
    destruct (IH (lstrip_by (is_chr "-") t)) as (HP & Hnd & Hhd); [lia|].
    split; [|split].
    + intros HF. apply Forall_cons in HF as [Hpc HF]. constructor; [assumption|].
      apply HP. eapply Forall_suffix; [apply lstrip_by_suffix | exact HF].
    + split; [|exact Hnd]. intros _ d Hd. apply Hhd in Hd.
      destruct (lstrip_by_head (is_chr "-") t) as [E | (e & E & He)]; congruence.
    + cbn. auto.
  - cbn zeta. rewrite sub_hyphens_other by assumption.
    destruct (IH t) as (HP & Hnd & Hhd); [lia|].
    split; [|split].
    + intros HF. apply Forall_cons in HF as [Hpc HF]. constructor; auto.
    + split; [congruence | exact Hnd].
    + cbn. auto.
Qed.

Lemma sub_hyphens_id whole s :
  no_double_hyphen s -> sub_from whole re_hyphens (py "-") 0 s = s.
Proof.
  induction s as [|c t IH]; [reflexivity|]. intros [Hc Ht].
  destruct (is_chr "-" c) eqn:E.
  - rewrite sub_hyphens_hyphen by assumption.
    rewrite lstrip_by_id by auto. now rewrite IH.
  - rewrite sub_hyphens_other by assumption. now rewrite IH.
Qed.

Lemma no_double_hyphen_app a b : no_double_hyphen (a ++ b) -> no_double_hyphen a.
Proof.
  induction a as [|c t IH]; [constructor|]. cbn [app no_double_hyphen].
  intros [Hc Ht]. split; [|auto].
  intros E d Hd. apply (Hc E). destruct t; [discriminate | exact Hd].
Qed.

(** ** clean_card_name *)

Lemma name_char_facts c :
  name_char c = true ->
  is_chr "(" c = false /\ is_chr "." c = false
  /\ is_chr "'" c = false /\ is_chr " " c = false.
Proof.
  destruct c as [[] [] [] [] [] [] [] []]; vm_compute; intros H;
    first [discriminate H | repeat split].
Qed.

Lemma replace_id a b s :
  Forall (fun c => is_chr a c = false) s -> replace a b s = s.
Proof.
  unfold replace. induction 1 as [|c t Hc Ht IH]; [reflexivity|].
  cbn. rewrite Hc. f_equal. exact IH.
Qed.

Lemma sub_paren_id whole s :
  Forall (fun c => is_chr "(" c = false) s -> sub_from whole re_paren [] 0 s = s.
Proof.
  intros H. apply sub_from_id. intros t Ht.
  unfold match_rest, re_paren. cbn [Cat foldr run Chr]. apply star_fail.
  intros u Hu. assert (Forall (fun c => is_chr "(" c = false) u) as HF
      by (eapply Forall_suffix; [exact Hu|]; eapply Forall_suffix; eauto).
  destruct HF as [|c v Hc Hv]; cbn [run one Chr]; [reflexivity | now rewrite Hc].
Qed.

Lemma sub_ordinal_id whole s :
  Forall (fun c => is_chr "." c = false) s -> sub_from whole re_ordinal [] 0 s = s.
Proof.
  intros H. apply sub_from_id. intros t Ht.
  unfold match_rest, re_ordinal. cbn [Cat foldr run Chr].
  destruct (length t =? whole)%nat; [|reflexivity].
  destruct t as [|c v]; cbn [one]; [reflexivity|].
  destruct (is_digit c); [|reflexivity]. apply star_fail.
  intros u Hu. assert (Forall (fun c => is_chr "." c = false) u) as HF.
  { eapply Forall_suffix; [exact Hu|]. eapply Forall_suffix; [|exact H].
    etrans; [|exact Ht]. now apply suffix_cons_r. }
  destruct HF as [|d w Hd Hw]; cbn [run one Chr]; [reflexivity | now rewrite Hd].
Qed.

Lemma sub_special_id whole s :
  Forall (fun c => name_char c = true) s -> sub_from whole re_special [] 0 s = s.
Proof.
  intros H. unfold re_special. rewrite sub_from_cls. apply filter_all.
  eapply Forall_impl; [exact H|]. cbn beta. intros c Hc.
  unfold name_char in Hc. now rewrite Hc.
Qed.

Lemma sub_special_name_chars whole s :
  Forall (fun c => name_char c = true) (sub_from whole re_special [] 0 s).
Proof.
  unfold re_special. rewrite sub_from_cls. apply Forall_forall.
  intros c Hc. apply list_elem_of_filter in Hc as [Hc _].
  unfold name_char. now apply negb_false_iff in Hc.
Qed.

Lemma clean_card_name_normal s : normal (clean_card_name s).
Proof.
  unfold clean_card_name, re_sub, rstrip.
  set (x := replace " " "-" _).
  set (y := sub_from _ re_special [] 0 x).
  set (z := sub_from _ re_hyphens (py "-") 0 y).
  destruct (sub_hyphens_spec (length y) (fun c => name_char c = true) (length y) y)
    as (HP & Hnd & _); [lia|]. fold z in HP, Hnd.
  specialize (HP (sub_special_name_chars _ _)).
  destruct (rstrip_by_prefix (is_chr "-") z) as [k Hk].
  split; [|split].
  - rewrite Hk in HP. now apply Forall_app in HP.
  - rewrite Hk in Hnd. now apply no_double_hyphen_app in Hnd.
  - apply rstrip_by_idemp.
Qed.

Lemma clean_card_name_fixes_normal s : normal s -> clean_card_name s = s.
Proof.
  intros (HF & Hnd & Hr). unfold clean_card_name, re_sub.
  assert (forall a, a ∈ [("(" : ascii); "."; "'"; " "]%char ->
            Forall (fun c => is_chr a c = false) s) as Hfree.
  { intros a Ha. eapply Forall_impl; [exact HF|]. intros c Hc.
    destruct (name_char_facts c Hc) as (H1 & H2 & H3 & H4).
    repeat (apply elem_of_cons in Ha as [-> | Ha]; [assumption|]). inversion Ha. }
  rewrite sub_paren_id by (apply Hfree; set_solver).
  rewrite sub_ordinal_id by (apply Hfree; set_solver).
  rewrite (replace_id "'") by (apply Hfree; set_solver).
  rewrite (replace_id " ") by (apply Hfree; set_solver).
  rewrite sub_special_id by exact HF.
  rewrite sub_hyphens_id by exact Hnd.
  exact Hr.
Qed.

(** C10: normalising a normalised name changes nothing. *)
Theorem clean_card_name_idempotent (s : str) :
  clean_card_name (clean_card_name s) = clean_card_name s.
Proof. apply clean_card_name_fixes_normal, clean_card_name_normal. Qed.

(** ** The resolver *)

Lemma path_join_nonempty a b : b <> [] -> path_join a b <> [].
Proof.
  intros Hb. unfold path_join.
  destruct (starts_with (py "/") b); [exact Hb|].
  destruct (bool_decide (a = []) || ends_with (py "/") a).
  - intros E. apply app_eq_nil in E as [_ E]. auto.
  - intros E. apply app_eq_nil in E as [_ E]. discriminate E.
Qed.

Lemma special_mappings_nonempty k f : special_mappings !! k = Some f -> f <> [].
Proof.
  intros H. apply elem_of_list_to_map_2 in H.
  repeat (apply elem_of_cons in H as [[= _ ->] | H]; [discriminate|]).
  inversion H.
Qed.

Lemma find_by_name_nonempty path_exists card_name image_dir p :
  find_by_name path_exists card_name image_dir = Some p -> p <> [].
Proof.
  unfold find_by_name.
  repeat (case_match; [intros [= <-]; apply path_join_nonempty;
                       intros E; apply app_eq_nil in E as [_ E]; discriminate E|]).
  case_match eqn:Hm; [|discriminate].
  case_match; [|discriminate].
  intros [= <-]. eapply path_join_nonempty, special_mappings_nonempty, Hm.
Qed.

Lemma find_image_file_nonempty path_exists card_name image_dir id p :
  find_image_file path_exists card_name image_dir id = Some p -> p <> [].
Proof.
  unfold find_image_file. case_match.
  - intros [= <-]. apply path_join_nonempty.
    intros E. apply app_eq_nil in E as [_ E]. discriminate E.
  - apply find_by_name_nonempty.
Qed.

Lemma truthy_find_image_file path_exists card_name image_dir id :
  truthy (find_image_file path_exists card_name image_dir id) = false ->
  find_image_file path_exists card_name image_dir id = None.
Proof.
  destruct (find_image_file _ _ _ _) as [[|c p]|] eqn:E; try (intros; reflexivity || discriminate).
  now apply find_image_file_nonempty in E.
Qed.

(** Outside a Rush-HD folder the identifier is not consulted. *)
Lemma identifier_ignored_outside_rush_hd path_exists card_name image_dir id :
  contains (py "Rush-HD") image_dir = false ->
  find_image_file path_exists card_name image_dir id
  = find_by_name path_exists card_name image_dir.
Proof.
  intros H. unfold find_image_file. rewrite H.
  now rewrite andb_false_r.
Qed.

(** C4, as stated, fails: outside a Rush-HD folder the file named after
    the identifier exists and is passed over for the file found by name. *)
Lemma identifier_passed_over :
  let path_exists := only_files [py "/art/900001.png"; py "/art/Sample-Dragon.jpg"] in
  path_exists (path_join (py "/art") (py "900001" ++ py ".png")) = true
  /\ find_image_file path_exists (py "Sample Dragon") (py "/art") (Some (py "900001"))
     = Some (py "/art/Sample-Dragon.jpg").
Proof. split; vm_compute; reflexivity. Qed.

(** C4, amended: for an entry with a non-empty identifier, when the path
    of the image directory contains "Rush-HD" and the file
    [<image_dir>/<identifier>.png] exists, the resolver returns that file,
    whatever the name-based strategies would find. *)
Theorem identifier_takes_precedence path_exists card_name image_dir (id : str) :
  id <> [] ->
  contains (py "Rush-HD") image_dir = true ->
  path_exists (path_join image_dir (id ++ py ".png")) = true ->
  find_image_file path_exists card_name image_dir (Some id)
  = Some (path_join image_dir (id ++ py ".png")).
Proof.
  intros Hid Hdir Hfile. unfold find_image_file.
  change (default [] (Some id)) with id. rewrite Hdir, Hfile.
  destruct id as [|c id]; [congruence | reflexivity].
Qed.

Lemma identifier_takes_precedence_witness :
  let path_exists :=
    only_files [py "/art/Rush-HD/900001.png"; py "/art/Rush-HD/Sample-Dragon.jpg"] in
  find_by_name path_exists (py "Sample Dragon") (py "/art/Rush-HD")
  = Some (py "/art/Rush-HD/Sample-Dragon.jpg")
  /\ find_image_file path_exists (py "Sample Dragon") (py "/art/Rush-HD") (Some (py "900001"))
     = Some (py "/art/Rush-HD/900001.png").
Proof.
  split; [vm_compute; reflexivity|].
  apply (identifier_takes_precedence _ (py "Sample Dragon") (py "/art/Rush-HD") (py "900001")).
  - discriminate.
  - vm_compute. reflexivity.
  - vm_compute. reflexivity.
Defined.

(** C5, as stated, fails: the apostrophe becomes a hyphen, so the
    normalised name is not the key "Winged-Beasts-Roar", and a file of that
    name is not found. *)
Lemma winged_beast_not_found :
  clean_card_name (py "Winged Beast's Roar") = py "Winged-Beast-s-Roar"
  /\ clean_card_name (py "Winged Beast's Roar") <> py "Winged-Beasts-Roar"
  /\ find_image_file (only_files [py "/art/Winged-Beasts-Roar.jpg"])
       (py "Winged Beast's Roar") (py "/art") None = None.
Proof.
  split; [vm_compute; reflexivity|].
  split; [vm_compute; discriminate | vm_compute; reflexivity].
Qed.

(** C5, amended: the normalisation of "Winged Beast's Roar" is
    "Winged-Beast-s-Roar"; an entry of that name without identifier is
    resolved by the exact-name strategy when the file
    [<image_dir>/Winged-Beast-s-Roar.jpg] exists, and that file is
    returned. *)
Theorem winged_beast_resolves path_exists image_dir :
  path_exists (path_join image_dir (py "Winged-Beast-s-Roar.jpg")) = true ->
  clean_card_name (py "Winged Beast's Roar") = py "Winged-Beast-s-Roar"
  /\ find_image_file path_exists (py "Winged Beast's Roar") image_dir None
     = Some (path_join image_dir (py "Winged-Beast-s-Roar.jpg")).
Proof.
  intros Hfile.
  assert (clean_card_name (py "Winged Beast's Roar") = py "Winged-Beast-s-Roar") as Hclean
      by (vm_compute; reflexivity).
  split; [exact Hclean|].
  unfold find_image_file. cbn [truthy andb]. unfold find_by_name.
  rewrite Hclean.
  change (py "Winged-Beast-s-Roar" ++ py ".jpg") with (py "Winged-Beast-s-Roar.jpg").
  now rewrite Hfile.
Qed.

Lemma winged_beast_resolves_witness :
  clean_card_name (py "Winged Beast's Roar") = py "Winged-Beast-s-Roar"
  /\ find_image_file (only_files [py "/art/Winged-Beast-s-Roar.jpg"])
       (py "Winged Beast's Roar") (py "/art") None
     = Some (path_join (py "/art") (py "Winged-Beast-s-Roar.jpg")).
Proof.
  apply (winged_beast_resolves (only_files [py "/art/Winged-Beast-s-Roar.jpg"]) (py "/art")).
  vm_compute. reflexivity.
Defined.

(** ** Pages *)

Lemma slice_four {A} (l : list A) i : slice l i (i + 4) = take 4 (drop i l).
Proof. unfold slice. f_equal. lia. Qed.

Lemma range4_succ n : range4 (S (S (S (S n)))) = 0 :: ((fun i => 4 + i) <$> range4 n).
Proof.
  unfold range4.
  replace ((S (S (S (S n))) + 3) / 4) with (S ((n + 3) / 4)).
  2:{ replace (S (S (S (S n))) + 3) with (1 * 4 + (n + 3)) by lia.
      rewrite Nat.div_add_l by lia. lia. }
  cbn [seq fmap list_fmap]. f_equal.
  rewrite <- fmap_S_seq, <- !list_fmap_compose.
  apply list_fmap_ext. intros _ k _. unfold compose. lia.
Qed.

Lemma range4_small n : 0 < n <= 4 -> range4 n = [0].
Proof.
  intros H. unfold range4.
  assert ((n + 3) / 4 = 1) as ->; [|reflexivity].
  destruct n as [|[|[|[|[|n]]]]]; try lia; reflexivity.
Qed.

Lemma pages_of_cons t (a b c d : card_item) l :
  pages_of t (a :: b :: c :: d :: l)
  = {| page_type := t; page_cards := [a; b; c; d] |} :: pages_of t l.
Proof.
  unfold pages_of. cbn [length]. rewrite range4_succ. cbn [fmap list_fmap].
  f_equal. rewrite <- list_fmap_compose. apply list_fmap_ext.
  intros _ i _. reflexivity.
Qed.

Lemma pages_of_last t (l : list card_item) :
  0 < length l <= 4 -> pages_of t l = [ {| page_type := t; page_cards := l |} ].
Proof.
  intros H. unfold pages_of. rewrite range4_small by exact H.
  cbn [fmap list_fmap]. rewrite slice_four, drop_0.
  now rewrite take_ge by lia.
Qed.

Lemma pages_of_nil t : pages_of t [] = [].
Proof. reflexivity. Qed.

(** The shape of the pages of one section. *)
Lemma pages_of_ind t (P : list card_item -> list page -> Prop) :
  P [] [] ->
  (forall l, 0 < length l <= 4 -> P l [ {| page_type := t; page_cards := l |} ]) ->
  (forall a b c d l, l <> [] -> P l (pages_of t l) ->
     P (a :: b :: c :: d :: l)
       ({| page_type := t; page_cards := [a; b; c; d] |} :: pages_of t l)) ->
  forall l, P l (pages_of t l).
Proof.
  intros Hnil Hlast Hcons l.
  induction l as [l IH] using (induction_ltof1 _ length). unfold ltof in IH.
  destruct l as [|a [|b [|c [|d [|e l]]]]];
    try (rewrite pages_of_last by (cbn; lia); apply Hlast; cbn; lia).
  - apply Hnil.
  - rewrite pages_of_cons. apply Hcons; [discriminate|]. apply IH. cbn. lia.
Qed.

Lemma pages_of_concat t l : concat (page_cards <$> pages_of t l) = l.
Proof.
  apply (pages_of_ind t (fun l ps => concat (page_cards <$> ps) = l)).
  - reflexivity.
  - intros k _. cbn. apply app_nil_r.
  - intros a b c d k _ IH. rewrite fmap_cons. cbn [concat page_cards].
    now rewrite IH.
Qed.

Lemma pages_of_bound t l :
  Forall (fun pg => 0 < length (page_cards pg) <= 4) (pages_of t l).
Proof.
  apply (pages_of_ind t (fun _ ps => Forall (fun pg => 0 < length (page_cards pg) <= 4) ps)).
  - constructor.
  - intros k Hk. constructor; [exact Hk | constructor].
  - intros a b c d k _ IH. constructor; [cbn; lia | exact IH].
Qed.

(** Page number [i] of a section holds the members [4 i] to [4 i + 3]. *)
Lemma pages_of_lookup t l i pg :
  pages_of t l !! i = Some pg ->
  page_type pg = t /\ page_cards pg = take 4 (drop (4 * i) l).
Proof.
  unfold pages_of, range4. rewrite list_lookup_fmap, list_lookup_fmap.
  destruct (seq 0 ((length l + 3) / 4) !! i) as [k|] eqn:E; [|discriminate].
  apply lookup_seq in E as [-> _]. cbn -[slice Nat.mul]. intros [= <-].
  cbn [page_type page_cards]. now rewrite slice_four.
Qed.



Lemma layout_of_cards st : layout_cards (layout_of st) = placed st.
Proof.
  unfold layout_cards, layout_of, placed.
  now rewrite !fmap_app, !concat_app, !pages_of_concat.
Qed.



(** ** The grouping loop *)

Section Grouping.
Variable path_exists : str -> bool.
Variable image_dir : str.

#[local] Abbreviation step := (group_card path_exists image_dir).
#[local] Abbreviation steps := (group_cards path_exists image_dir).
#[local] Abbreviation find c :=
  (find_image_file path_exists (name c) image_dir (edopro_id c)).

Lemma group_card_turn st c :
  turn path_exists image_dir st c (step st c).
Proof.
  unfold group_card. case_decide as Hseen; [now constructor|].
  destruct (truthy (find c)) eqn:Himg.
  - destruct (find c) as [p|] eqn:Hfind; [|discriminate]. cbn [default from_option id].
    case_decide; [now apply turn_duplicate_image | now apply turn_image].
  - apply truthy_find_image_file in Himg. rewrite Himg. cbn [description].
    destruct (truthy (get_card_descriptions !! name c)) eqn:Hdesc;
      [now apply turn_description | now apply turn_missing].
Qed.

Lemma placed_append_item t item st :
  placed (append_item t item st) ≡ₚ item :: placed st.
Proof.
  unfold placed. destruct t; cbn [append_item monster_cards spell_cards trap_cards].
  - rewrite <- app_assoc. cbn [app]. now rewrite <- Permutation_middle.
  - rewrite <- app_assoc. cbn [app]. rewrite <- (Permutation_middle (spell_cards st)).
    now rewrite <- Permutation_middle.
  - rewrite !app_assoc. now rewrite <- Permutation_cons_append.
Qed.

Lemma seen_append_item t item st :
  seen_cards (append_item t item st) = seen_cards st
  /\ seen_images (append_item t item st) = seen_images st
  /\ missing_cards (append_item t item st) = missing_cards st.
Proof. now destruct t. Qed.

Lemma group_card_inv st c : grouping_inv st -> grouping_inv (step st c).
Proof.
  intros Hinv. pose proof Hinv as (Hn & Hp & Hnn & Hnp).
  destruct (group_card_turn st c) as [Hseen|p Hseen Hf Hin|p Hseen Hf Hin|Hseen Hf Hd|Hseen Hf Hd];
    try exact Hinv.
  - set (item := {| item_name := name c; image_path := Some p;
                    description := get_card_descriptions !! name c |}).
    set (st1 := see_image p (see_card (name c) st)).
    pose proof (placed_append_item (type c) item st1) as Hperm.
    destruct (seen_append_item (type c) item st1) as (E1 & E2 & _).
    unfold grouping_inv. rewrite E1, E2.
    change (seen_cards st1) with (seen_cards st ∪ {[name c]}).
    change (seen_images st1) with (seen_images st ∪ {[p]}).
    change (placed st1) with (placed st) in Hperm.
    split; [|split; [|split]].
    + intros n. rewrite Hperm, fmap_cons, elem_of_union, elem_of_singleton, elem_of_cons, Hn.
      change (item_name item) with (name c). tauto.
    + intros q. rewrite Hperm. change (omap image_path (item :: placed st))
        with (p :: omap image_path (placed st)).
      rewrite elem_of_union, elem_of_singleton, elem_of_cons, Hp. tauto.
    + rewrite Hperm, fmap_cons. apply NoDup_cons. split; [now rewrite <- Hn | exact Hnn].
    + rewrite Hperm. change (omap image_path (item :: placed st))
        with (p :: omap image_path (placed st)).
      apply NoDup_cons. split; [now rewrite <- Hp | exact Hnp].
  - set (item := {| item_name := name c; image_path := None;
                    description := get_card_descriptions !! name c |}).
    set (st1 := see_card (name c) st).
    pose proof (placed_append_item (type c) item st1) as Hperm.
    destruct (seen_append_item (type c) item st1) as (E1 & E2 & _).
    unfold grouping_inv. rewrite E1, E2.
    change (seen_cards st1) with (seen_cards st ∪ {[name c]}).
    change (seen_images st1) with (seen_images st).
    change (placed st1) with (placed st) in Hperm.
    split; [|split; [|split]].
    + intros n. rewrite Hperm, fmap_cons, elem_of_union, elem_of_singleton, elem_of_cons, Hn.
      change (item_name item) with (name c). tauto.
    + intros q. rewrite Hperm. exact (Hp q).
    + rewrite Hperm, fmap_cons. apply NoDup_cons. split; [now rewrite <- Hn | exact Hnn].
    + rewrite Hperm. exact Hnp.
Qed.

Lemma grouping_init_inv : grouping_inv grouping_init.
Proof.
  repeat split; cbn; try apply NoDup_nil_2; try set_solver.
Qed.

Lemma foldl_group_card_inv cards st :
  grouping_inv st -> grouping_inv (foldl step st cards).
Proof.
  revert st. induction cards as [|c cards IH]; intros st H; [exact H|].
  cbn [foldl]. apply IH, group_card_inv, H.
Qed.

Lemma group_cards_inv cards : grouping_inv (steps cards).
Proof. apply foldl_group_card_inv, grouping_init_inv. Qed.

Lemma group_card_grows st c : grows st (step st c).
Proof.
  destruct (group_card_turn st c); try destruct (type c);
    repeat split; cbn; try reflexivity; now apply prefix_app_r.
Qed.

Lemma foldl_group_card_grows cards st : grows st (foldl step st cards).
Proof.
  revert st. induction cards as [|c cards IH]; intros st.
  - repeat split; reflexivity.
  - cbn [foldl]. destruct (group_card_grows st c) as (H1 & H2 & H3 & H4).
    destruct (IH (step st c)) as (G1 & G2 & G3 & G4).
    repeat split; etrans; eassumption.
Qed.

Lemma grows_placed st st' : grows st st' -> placed st `sublist_of` placed st'.
Proof.
  intros ([k1 E1] & [k2 E2] & [k3 E3] & _). unfold placed. rewrite E1, E2, E3.
  repeat apply sublist_app; try reflexivity; now apply sublist_inserts_r.
Qed.

(** The layout is made from the core of the state alone, and a turn of
    the loop maps equal cores to equal cores. *)
Lemma layout_of_core st1 st2 : core st1 = core st2 -> layout_of st1 = layout_of st2.
Proof. intros [= E1 E2 E3 _ _]. unfold layout_of. now rewrite E1, E2, E3. Qed.

Lemma group_card_core st1 st2 c :
  core st1 = core st2 -> core (step st1 c) = core (step st2 c).
Proof.
  destruct st1, st2. intros [= -> -> -> -> ->]. unfold group_card.
  cbn [seen_cards seen_images].
  repeat (case_decide || case_match); try reflexivity; destruct (type c); reflexivity.
Qed.

Lemma foldl_group_card_core cards st1 st2 :
  core st1 = core st2 ->
  core (foldl step st1 cards) = core (foldl step st2 cards).
Proof.
  revert st1 st2. induction cards as [|c cards IH]; intros st1 st2 H; [exact H|].
  cbn [foldl]. now apply IH, group_card_core.
Qed.

Lemma group_card_same_but_count st c1 c2 :
  same_but_count c1 c2 -> step st c1 = step st c2.
Proof. intros (Hn & Ht & Hi). unfold group_card. now rewrite Hn, Ht, Hi. Qed.

Lemma group_cards_same_but_count cards1 cards2 :
  Forall2 same_but_count cards1 cards2 -> steps cards1 = steps cards2.
Proof.
  intros H. unfold group_cards. generalize grouping_init.
  induction H as [|c1 c2 l1 l2 Hc Hl IH]; intros st; [reflexivity|].
  cbn [foldl]. rewrite (group_card_same_but_count st c1 c2 Hc). apply IH.
Qed.
End Grouping.

(** ** The layout *)

Lemma layout_cards_placed path_exists image_dir cards :
  layout_cards (layout path_exists image_dir cards)
  = placed (group_cards path_exists image_dir cards).
Proof. apply layout_of_cards. Qed.

Lemma group_cards_snoc path_exists image_dir pre c :
  group_cards path_exists image_dir (pre ++ [c])
  = group_card path_exists image_dir (group_cards path_exists image_dir pre) c.
Proof. unfold group_cards. apply foldl_snoc. Qed.

(** A card whose name or image is among the cards kept so far adds
    nothing to them. *)
Lemma group_card_skips path_exists image_dir st c :
  grouping_inv st ->
  name c ∈ item_name <$> placed st
  \/ (exists p, find_image_file path_exists (name c) image_dir (edopro_id c) = Some p
                /\ p ∈ omap image_path (placed st)) ->
  core (group_card path_exists image_dir st c) = core st.
Proof.
  intros (Hn & Hp & _ & _) H.
  destruct (group_card_turn path_exists image_dir st c)
    as [Hseen|p Hseen Hf Hin|p Hseen Hf Hin|Hseen Hf Hd|Hseen Hf Hd]; try reflexivity;
    exfalso; destruct H as [H | (q & Hq & H)];
    try (apply Hseen, Hn, H); try congruence.
  apply Hin, Hp. congruence.
Qed.

Lemma NoDup_fmap_lookup {A B} (f : A -> B) (l : list A) i j a b :
  NoDup (f <$> l) -> i <> j -> l !! i = Some a -> l !! j = Some b -> f a <> f b.
Proof.
  intros Hnd Hij Ha Hb E. apply Hij.
  apply (NoDup_lookup (f <$> l) i j (f a) Hnd); rewrite list_lookup_fmap.
  - now rewrite Ha.
  - now rewrite Hb, E.
Qed.

Lemma NoDup_omap_lookup {A B} (f : A -> option B) (l : list A) :
  NoDup (omap f l) ->
  forall i j a b y, i <> j -> l !! i = Some a -> l !! j = Some b ->
    f a = Some y -> f b <> Some y.
Proof.
  induction l as [|x l IH]; intros Hnd i j a b y Hij Ha Hb Hfa Hfb; [discriminate Ha|].
  assert (forall k z, l !! k = Some z -> f z = Some y -> y ∈ omap f l) as Hin.
  { intros k z Hk Hz. apply list_elem_of_omap. exists z.
    split; [eapply list_elem_of_lookup_2, Hk | exact Hz]. }
  cbn [omap list_omap] in Hnd.
  destruct i as [|i], j as [|j]; cbn in Ha, Hb; try congruence.
  - injection Ha as ->. rewrite Hfa in Hnd. apply NoDup_cons in Hnd as [Hy _].
    apply Hy. eapply Hin; eauto.
  - injection Hb as ->. rewrite Hfb in Hnd. apply NoDup_cons in Hnd as [Hy _].
    apply Hy. eapply Hin; eauto.
  - destruct (f x); [apply NoDup_cons in Hnd as [_ Hnd]|];
      apply (IH Hnd i j a b y); auto.
Qed.

(** C6: any two cards at different places of the layout differ in their
    names and, where they have one, in their image paths; an entry whose
    name, or whose resolved image path, is that of an entry placed before
    it is skipped, and the entries placed before stay where they are. *)
Theorem dedup_sound path_exists image_dir cards :
  (forall i j a b, i <> j ->
     layout_cards (layout path_exists image_dir cards) !! i = Some a ->
     layout_cards (layout path_exists image_dir cards) !! j = Some b ->
     item_name a <> item_name b
     /\ forall p, image_path a = Some p -> image_path b <> Some p)
  /\ (forall pre c post, cards = pre ++ c :: post ->
        name c ∈ item_name <$> layout_cards (layout path_exists image_dir pre)
        \/ (exists p,
              find_image_file path_exists (name c) image_dir (edopro_id c) = Some p
              /\ p ∈ omap image_path (layout_cards (layout path_exists image_dir pre))) ->
        layout path_exists image_dir (pre ++ [c]) = layout path_exists image_dir pre)
  /\ (forall pre post, cards = pre ++ post ->
        layout_cards (layout path_exists image_dir pre)
        `sublist_of` layout_cards (layout path_exists image_dir cards)).
Proof.
  rewrite layout_cards_placed.
  destruct (group_cards_inv path_exists image_dir cards) as (_ & _ & Hnn & Hnp).
  split; [|split].
  - intros i j a b Hij Ha Hb. split.
    + exact (NoDup_fmap_lookup item_name _ i j a b Hnn Hij Ha Hb).
    + intros p. exact (NoDup_omap_lookup image_path _ Hnp i j a b p Hij Ha Hb).
  - intros pre c post _ H. rewrite layout_cards_placed in H.
    unfold layout. rewrite group_cards_snoc. apply layout_of_core.
    apply group_card_skips; [apply group_cards_inv | exact H].
  - intros pre post ->. rewrite layout_cards_placed. apply grows_placed.
    unfold group_cards. rewrite foldl_app. apply foldl_group_card_grows.
Qed.

Lemma dedup_sound_witness :
  let path_exists := only_files [py "/art/Sample-Dragon.jpg"] in
  let c1 := {| name := py "Sample Dragon"; type := Monster; count := 1; edopro_id := None |} in
  let c2 := {| name := py "Sample Dragon!"; type := Spell; count := 1; edopro_id := None |} in
  layout path_exists (py "/art") ([c1] ++ [c2]) = layout path_exists (py "/art") [c1].
Proof.
  intros path_exists c1 c2.
  apply (proj1 (proj2 (dedup_sound path_exists (py "/art") [c1; c2])) [c1] c2 []).
  - reflexivity.
  - right. exists (py "/art/Sample-Dragon.jpg"). split; vm_compute; [reflexivity|].
    apply list_elem_of_here.
Defined.

Lemma group_card_missing path_exists image_dir st c :
  name c ∉ seen_cards st ->
  find_image_file path_exists (name c) image_dir (edopro_id c) = None ->
  get_card_descriptions !! name c = None ->
  group_card path_exists image_dir st c = report_missing (name c) st.
Proof.
  intros Hseen Hf Hd. unfold group_card.
  rewrite decide_False by exact Hseen. rewrite Hf, Hd. reflexivity.
Qed.

(** C2, as stated, fails: a card without image and without description is
    reported and gets no slot; the deck that consists of it has no page. *)
Lemma unresolved_card_has_no_slot :
  let c := {| name := py "Sample Dragon"; type := Monster; count := 1; edopro_id := None |} in
  find_image_file (only_files []) (name c) (py "/art") (edopro_id c) = None
  /\ get_card_descriptions !! name c = None
  /\ generate_deck_pdf (only_files []) (py "/art") (py "Deck") [c]
     = {| pdf_pages := []; printed_missing := [py "Sample Dragon"]; printed_skipped := [] |}.
Proof. repeat split; vm_compute; reflexivity. Qed.

(** C2, amended: an entry for which no image is found and no description
    exists takes no slot: the pages are those of the deck without the
    entry.  Its name is reported as missing, unless an entry of the same
    name was placed before it, in which case it is skipped as a
    duplicate. *)
Theorem unresolved_reported_not_placed path_exists image_dir deck_name pre c post :
  find_image_file path_exists (name c) image_dir (edopro_id c) = None ->
  get_card_descriptions !! name c = None ->
  layout path_exists image_dir (pre ++ c :: post)
  = layout path_exists image_dir (pre ++ post)
  /\ pdf_pages (generate_deck_pdf path_exists image_dir deck_name (pre ++ c :: post))
     = pdf_pages (generate_deck_pdf path_exists image_dir deck_name (pre ++ post))
  /\ (name c ∉ item_name <$> layout_cards (layout path_exists image_dir pre) ->
      name c ∈ printed_missing
                 (generate_deck_pdf path_exists image_dir deck_name (pre ++ c :: post))).
Proof.
  intros Hf Hd.
  assert (core (group_cards path_exists image_dir (pre ++ c :: post))
          = core (group_cards path_exists image_dir (pre ++ post))) as Hcore.
  { unfold group_cards. rewrite !foldl_app. cbn [foldl].
    apply foldl_group_card_core.
    destruct (decide (name c ∈ seen_cards
                (foldl (group_card path_exists image_dir) grouping_init pre)))
      as [Hseen|Hseen].
    - unfold group_card. now rewrite decide_True.
    - now rewrite group_card_missing. }
  split; [apply layout_of_core, Hcore|].
  split; [unfold generate_deck_pdf; cbn [pdf_pages]; f_equal; apply layout_of_core, Hcore|].
  intros Hnot. rewrite layout_cards_placed in Hnot.
  destruct (group_cards_inv path_exists image_dir pre) as (Hn & _).
  unfold generate_deck_pdf. cbn [printed_missing].
  unfold group_cards in *. rewrite foldl_app. cbn [foldl].
  rewrite group_card_missing; [| now rewrite Hn | exact Hf | exact Hd].
  destruct (foldl_group_card_grows path_exists image_dir post
              (report_missing (name c)
                 (foldl (group_card path_exists image_dir) grouping_init pre)))
    as (_ & _ & _ & [k ->]).
  cbn [missing_cards report_missing]. rewrite !elem_of_app, list_elem_of_singleton. tauto.
Qed.

Lemma unresolved_reported_not_placed_witness :
  let c := {| name := py "Sample Dragon"; type := Monster; count := 1; edopro_id := None |} in
  let d := {| name := py "Soul Drake"; type := Monster; count := 1; edopro_id := None |} in
  layout (only_files []) (py "/art") ([d] ++ c :: [d])
  = layout (only_files []) (py "/art") ([d] ++ [d]).
Proof.
  intros c d.
  apply (unresolved_reported_not_placed (only_files []) (py "/art") (py "Deck") [d] c [d]).
  - vm_compute. reflexivity.
  - vm_compute. reflexivity.
Defined.

(** * Further properties *)

(** ** More on the parser *)

Lemma lstrip_by_nil_iff p s : lstrip_by p s = [] <-> Forall (fun c => p c = true) s.
Proof.
  induction s as [|c t IH]; cbn; [split; [constructor | reflexivity]|].
  destruct (p c) eqn:E.
  - rewrite IH. split; [now constructor | now inversion 1].
  - split; [discriminate | inversion 1; congruence].
Qed.

Lemma rstrip_by_head p s c :
  head s = Some c -> p c = false -> head (rstrip_by p s) = Some c.
Proof.
  intros Hs Hc. destruct s as [|d t]; [discriminate|]. injection Hs as ->.
  destruct (rstrip_by_prefix p (c :: t)) as [k Hk].
  destruct (rstrip_by p (c :: t)) as [|e u] eqn:E.
  - exfalso. unfold rstrip_by in E. apply (f_equal reverse) in E.
    rewrite reverse_involutive, reverse_nil in E. apply lstrip_by_nil_iff in E.
    rewrite reverse_cons, Forall_app, Forall_singleton in E.
    destruct E as [_ E]. congruence.
  - cbn in Hk. now injection Hk as -> _.
Qed.

Lemma strip_idemp s : strip (strip s) = strip s.
Proof.
  unfold strip. set (x := lstrip_by is_space s).
  assert (lstrip_by is_space (rstrip_by is_space x) = rstrip_by is_space x) as ->.
  { apply lstrip_by_id. intros c Hc.
    destruct (lstrip_by_head is_space s) as [E | (d & E & Hd)]; fold x in E.
    - destruct x; [|discriminate]. discriminate Hc.
    - rewrite (rstrip_by_head _ _ _ E Hd) in Hc. congruence. }
  apply rstrip_by_idemp.
Qed.

Lemma strip_blank s : Forall (fun c => is_space c = true) s -> strip s = [].
Proof.
  intros H. unfold strip. apply lstrip_by_nil_iff in H. now rewrite H.
Qed.

Lemma parse_line_strip st raw : parse_line st (strip raw) = parse_line st raw.
Proof. destruct st. unfold parse_line. now rewrite strip_idemp. Qed.

Lemma foldl_parse_line_strip lines st :
  foldl parse_line st (strip <$> lines) = foldl parse_line st lines.
Proof.
  revert st. induction lines as [|l lines IH]; intros st; [reflexivity|].
  cbn [fmap list_fmap foldl]. rewrite parse_line_strip. apply IH.
Qed.

(** The cards so far are kept by a turn of the loop, which adds at most
    one card. *)
Lemma parse_line_grows cards cur raw :
  exists new cur', parse_line (cards, cur) raw = (cards ++ new, cur') /\ length new <= 1.
Proof.
  unfold parse_line. destruct (header (strip raw)).
  - exists [], (Some c). rewrite app_nil_r. split; [reflexivity | cbn; lia].
  - destruct (re_match re_card_line (strip raw)) as [g|], cur as [t|].
    + exists [card_of_match g t], (Some t). split; [reflexivity | cbn; lia].
    + exists [], None. rewrite app_nil_r. split; [reflexivity | cbn; lia].
    + exists [], (Some t). rewrite app_nil_r. split; [reflexivity | cbn; lia].
    + exists [], None. rewrite app_nil_r. split; [reflexivity | cbn; lia].
Qed.

Lemma foldl_parse_line_grows lines cards cur :
  exists new cur', foldl parse_line (cards, cur) lines = (cards ++ new, cur')
                   /\ length new <= length lines.
Proof.
  revert cards cur. induction lines as [|l lines IH]; intros cards cur.
  - exists [], cur. rewrite app_nil_r. split; [reflexivity | cbn; lia].
  - cbn [foldl]. destruct (parse_line_grows cards cur l) as (n1 & c1 & -> & H1).
    destruct (IH (cards ++ n1) c1) as (n2 & c2 & -> & H2).
    exists (n1 ++ n2), c2. rewrite app_assoc, length_app. split; [reflexivity | cbn; lia].
Qed.

(** X1: the result of a deck is a prefix of the result of any longer deck, and
    a deck has at most as many cards as lines. *)
Theorem parse_extends (lines more : list str) :
  parse_deck_new_format lines `prefix_of` parse_deck_new_format (lines ++ more)
  /\ length (parse_deck_new_format lines) <= length lines.
Proof.
  unfold parse_deck_new_format. rewrite foldl_app. split.
  - destruct (foldl parse_line ([], None) lines) as [cards cur].
    destruct (foldl_parse_line_grows more cards cur) as (new & cur' & -> & _).
    now exists new.
  - destruct (foldl_parse_line_grows lines [] None) as (new & cur' & -> & H). exact H.
Qed.

(** X2: white space around a line has no effect. *)
Theorem parse_ignores_surrounding_space (lines : list str) :
  parse_deck_new_format (strip <$> lines) = parse_deck_new_format lines.
Proof. unfold parse_deck_new_format. now rewrite foldl_parse_line_strip. Qed.

Lemma re_card_line_digit s g :
  re_match re_card_line s = Some g -> exists c t, s = c :: t /\ is_digit c = true.
Proof.
  unfold re_match, re_card_line. cbn [Cat foldr run]. rewrite Nat.eqb_refl.
  destruct s as [|c t]; cbn [one]; [discriminate|].
  destruct (is_digit c) eqn:E; [|discriminate]. intros _. now exists c, t.
Qed.

Lemma header_not_digit line c t : line = c :: t -> is_digit c = true -> header line = None.
Proof.
  intros -> Hc. unfold header.
  repeat (case_decide as E;
          [apply (f_equal head) in E; vm_compute in E; injection E as ->;
           vm_compute in Hc; discriminate Hc | clear E]).
  reflexivity.
Qed.

(** X3: a line that, white space aside, does not start with a digit and is
    not a header is passed over: commentary and blank lines between the
    cards change nothing. *)
Theorem parse_skips_commentary (pre post : list str) (line : str) :
  header (strip line) = None ->
  (forall c, head (strip line) = Some c -> is_digit c = false) ->
  parse_deck_new_format (pre ++ line :: post) = parse_deck_new_format (pre ++ post).
Proof.
  intros Hh Hd. unfold parse_deck_new_format. rewrite !foldl_app. cbn [foldl].
  destruct (foldl parse_line ([], None) pre) as [cards cur].
  rewrite parse_line_skip; [reflexivity | exact Hh |].
  destruct (re_match re_card_line (strip line)) as [g|] eqn:E; [|reflexivity].
  apply re_card_line_digit in E as (c & t & E & Hc).
  rewrite E in Hd. rewrite (Hd c) in Hc; [discriminate | reflexivity].
Qed.

Lemma parse_skips_commentary_witness :
  parse_deck_new_format ([py "MONSTER CARDS:"] ++ py "  -- main deck --" :: [py "1. Sample Dragon"])
  = parse_deck_new_format ([py "MONSTER CARDS:"] ++ [py "1. Sample Dragon"]).
Proof.
  apply (parse_skips_commentary [py "MONSTER CARDS:"] [py "1. Sample Dragon"]
           (py "  -- main deck --")).
  - vm_compute. reflexivity.
  - vm_compute. intros c [= <-]. reflexivity.
Defined.

(** X4: no card is produced before the first header: a deck without header
    line has no cards. *)
Theorem parse_without_header (lines : list str) :
  Forall (fun l => header (strip l) = None) lines ->
  parse_deck_new_format lines = [].
Proof.
  intros H. unfold parse_deck_new_format.
  assert (foldl parse_line ([], None) lines = ([], None)) as ->; [|reflexivity].
  induction H as [|l lines Hl _ IH]; [reflexivity|].
  cbn [foldl]. unfold parse_line at 2. rewrite Hl.
  destruct (re_match re_card_line (strip l)); exact IH.
Qed.

Lemma parse_without_header_witness :
  parse_deck_new_format [py "1. Sample Dragon (EDOPro: 900001)"; py "2. Soul Drake"] = [].
Proof.
  apply (parse_without_header [py "1. Sample Dragon (EDOPro: 900001)"; py "2. Soul Drake"]).
  repeat constructor.
Defined.

(** X5: between a header and the next one every card takes the type of that
    header, and the cards before the header are kept. *)
Theorem parse_section_type (pre body : list str) (h : str) (t : card_type) :
  header (strip h) = Some t ->
  Forall (fun l => header (strip l) = None) body ->
  exists cs, parse_deck_new_format (pre ++ h :: body) = parse_deck_new_format pre ++ cs
             /\ Forall (fun c => type c = t) cs.
Proof.
  intros Hh Hbody. unfold parse_deck_new_format. rewrite foldl_app. cbn [foldl].
  destruct (foldl parse_line ([], None) pre) as [cards cur]. cbn [fst].
  rewrite (parse_line_header cards cur h t Hh).
  assert (forall cards, exists cs,
            foldl parse_line (cards, Some t) body = (cards ++ cs, Some t)
            /\ Forall (fun c => type c = t) cs) as Hloop.
  { clear cards. induction Hbody as [|l body Hl _ IH]; intros cards.
    - exists []. now rewrite app_nil_r.
    - cbn [foldl]. unfold parse_line at 2. rewrite Hl.
      destruct (re_match re_card_line (strip l)) as [g|].
      + destruct (IH (cards ++ [card_of_match g t])) as (cs & -> & Hcs).
        exists (card_of_match g t :: cs). rewrite <- app_assoc. split; [reflexivity|].
        now constructor.
      + apply IH. }
  destruct (Hloop cards) as (cs & -> & Hcs). now exists cs.
Qed.

Lemma parse_section_type_witness :
  exists cs,
    parse_deck_new_format ([py "MONSTER CARDS:"; py "1. Sample Dragon"]
                           ++ py "SPELL CARDS:" :: [py "2. Dragon's Inferno"])
    = parse_deck_new_format [py "MONSTER CARDS:"; py "1. Sample Dragon"] ++ cs
    /\ Forall (fun c => type c = Spell) cs.
Proof.
  apply (parse_section_type [py "MONSTER CARDS:"; py "1. Sample Dragon"]
           [py "2. Dragon's Inferno"] (py "SPELL CARDS:") Spell).
  - vm_compute. reflexivity.
  - repeat constructor.
Defined.

(** X6: the name and the identifier of a parsed card have no white space
    around them. *)
Theorem parsed_fields_stripped (lines : list str) :
  Forall (fun c => strip (name c) = name c
                   /\ forall i, edopro_id c = Some i -> strip i = i)
         (parse_deck_new_format lines).
Proof.
  unfold parse_deck_new_format.
  assert (forall st,
            Forall (fun c => strip (name c) = name c
                             /\ forall i, edopro_id c = Some i -> strip i = i) (fst st) ->
            Forall (fun c => strip (name c) = name c
                             /\ forall i, edopro_id c = Some i -> strip i = i)
                   (fst (foldl parse_line st lines))) as H; [|apply H; constructor].
  induction lines as [|l lines IH]; intros [cards cur] H; [exact H|].
  cbn [foldl]. apply IH. unfold parse_line.
  destruct (header (strip l)); [exact H|].
  destruct (re_match re_card_line (strip l)) as [g|], cur; try exact H.
  cbn [fst] in *. apply Forall_app. split; [exact H|].
  constructor; [|constructor]. unfold card_of_match. cbn [name edopro_id]. split.
  - apply strip_idemp.
  - intros i. destruct (g !! 2%nat); cbn; [|discriminate].
    intros [= <-]. apply strip_idemp.
Qed.

(** ** More on the resolver *)

Lemma head_filter_cons (f : str -> bool) x l :
  head (filter (fun p => f p = true) (x :: l))
  = if f x then Some x else head (filter (fun p => f p = true) l).
Proof.
  rewrite filter_cons. destruct (f x) eqn:E.
  - now rewrite decide_True.
  - now rewrite decide_False by congruence.
Qed.

Lemma find_by_name_first path_exists card_name image_dir :
  find_by_name path_exists card_name image_dir
  = head (filter (fun p => path_exists p = true) (candidates card_name image_dir None)).
Proof.
  unfold find_by_name, candidates. cbn [truthy andb app].
  rewrite !head_filter_cons.
  destruct (special_mappings !! clean_card_name card_name) as [f|]; [|reflexivity].
  now rewrite head_filter_cons.
Qed.

Lemma find_image_file_head path_exists card_name image_dir edopro_id :
  find_image_file path_exists card_name image_dir edopro_id
  = head (filter (fun p => path_exists p = true)
                 (candidates card_name image_dir edopro_id)).
Proof.
  unfold find_image_file. rewrite find_by_name_first.
  unfold candidates at 2.
  destruct (truthy edopro_id && contains (py "Rush-HD") image_dir); [|reflexivity].
  cbn [andb app]. now rewrite head_filter_cons.
Qed.

(** X7: the resolver returns the first file of [candidates] that exists, and
    nothing when none of them exists. *)
Theorem find_image_file_first_existing path_exists card_name image_dir edopro_id :
  find_image_file path_exists card_name image_dir edopro_id
  = head (filter (fun p => path_exists p = true)
                 (candidates card_name image_dir edopro_id)).
Proof. apply find_image_file_head. Qed.

Lemma ends_with_app_r p a b : ends_with p b = true -> ends_with p (a ++ b) = true.
Proof.
  unfold ends_with. rewrite reverse_app.
  generalize (reverse b). generalize (reverse p). generalize (reverse a). clear.
  intros a u. induction u as [|c u IH]; intros [|d v]; cbn; try reflexivity; try discriminate.
  intros H. apply andb_true_iff in H as [-> H]. cbn. now apply IH.
Qed.

Lemma ends_with_path_join p a b : ends_with p b = true -> ends_with p (path_join a b) = true.
Proof.
  intros H. unfold path_join. destruct (starts_with (py "/") b); [exact H|].
  destruct (bool_decide (a = []) || ends_with (py "/") a); [now apply ends_with_app_r|].
  rewrite app_assoc. now apply ends_with_app_r.
Qed.

Lemma special_mappings_jpg k f :
  special_mappings !! k = Some f -> ends_with (py ".jpg") f = true.
Proof.
  intros H. apply elem_of_list_to_map_2 in H.
  repeat (apply elem_of_cons in H as [[= _ ->] | H]; [vm_compute; reflexivity|]).
  inversion H.
Qed.

Lemma find_image_file_exists path_exists card_name image_dir edopro_id p :
  find_image_file path_exists card_name image_dir edopro_id = Some p ->
  path_exists p = true.
Proof.
  rewrite find_image_file_head. intros H.
  destruct (filter _ _) as [|q l] eqn:E; [discriminate H|]. injection H as ->.
  assert (p ∈ filter (fun p => path_exists p = true)
                     (candidates card_name image_dir edopro_id)) as Hp
      by (rewrite E; apply list_elem_of_here).
  now apply list_elem_of_filter in Hp as [Hex _].
Qed.

(** X8: a resolved image exists, and it is a [.jpg] file, or the [.png] file
    of the identifier. *)
Theorem find_image_file_sound path_exists card_name image_dir edopro_id p :
  find_image_file path_exists card_name image_dir edopro_id = Some p ->
  path_exists p = true
  /\ (ends_with (py ".jpg") p = true
      \/ exists i, edopro_id = Some i /\ i <> [] /\ p = path_join image_dir (i ++ py ".png")).
Proof.
  rewrite find_image_file_head. intros H.
  assert (p ∈ filter (fun p => path_exists p = true)
                     (candidates card_name image_dir edopro_id)) as Hp.
  { destruct (filter _ _) as [|q l]; [discriminate H|].
    injection H as ->. apply list_elem_of_here. }
  apply list_elem_of_filter in Hp as [Hex Hp]. split; [exact Hex|].
  unfold candidates in Hp. apply elem_of_app in Hp as [Hp | Hp].
  - right. destruct (truthy edopro_id && contains (py "Rush-HD") image_dir) eqn:E;
      [|inversion Hp].
    apply list_elem_of_singleton in Hp as ->. apply andb_true_iff in E as [E _].
    destruct edopro_id as [[|c i]|]; try discriminate E.
    exists (c :: i). repeat split. discriminate.
  - left. apply elem_of_app in Hp as [Hp | Hp].
    + repeat (apply elem_of_cons in Hp as [-> | Hp];
              [apply ends_with_path_join, ends_with_app_r; vm_compute; reflexivity|]).
      inversion Hp.
    + destruct (special_mappings !! clean_card_name card_name) as [f|] eqn:Hf;
        [|inversion Hp].
      apply list_elem_of_singleton in Hp as ->.
      eapply ends_with_path_join, special_mappings_jpg, Hf.
Qed.

Lemma find_image_file_sound_witness :
  only_files [py "/art/Sample-Dragon.jpg"] (py "/art/Sample-Dragon.jpg") = true.
Proof.
  apply (find_image_file_sound (only_files [py "/art/Sample-Dragon.jpg"])
           (py "Sample Dragon") (py "/art") None (py "/art/Sample-Dragon.jpg")).
  vm_compute. reflexivity.
Defined.

(** X9: a card can be looked up under its cleaned name: the result is the
    same. *)
Theorem find_image_file_cleaned_name path_exists card_name image_dir edopro_id :
  find_image_file path_exists (clean_card_name card_name) image_dir edopro_id
  = find_image_file path_exists card_name image_dir edopro_id.
Proof.
  unfold find_image_file, find_by_name.
  now rewrite (clean_card_name_fixes_normal _ (clean_card_name_normal card_name)).
Qed.

(** ** More on the grouping loop *)

Section Reports.
Variable path_exists : str -> bool.
Variable image_dir : str.

#[local] Abbreviation step := (group_card path_exists image_dir).
#[local] Abbreviation find c :=
  (find_image_file path_exists (name c) image_dir (edopro_id c)).

Lemma placed_elem_append_item t item st x :
  x ∈ placed (append_item t item st) <-> x = item \/ x ∈ placed st.
Proof. now rewrite placed_append_item, elem_of_cons. Qed.

Lemma skipped_append_item t item st :
  skipped_images (append_item t item st) = skipped_images st.
Proof. now destruct t. Qed.

(** The duplicate-image messages are kept by a turn of the loop. *)
Lemma group_card_skipped_grows st c :
  skipped_images st `prefix_of` skipped_images (step st c).
Proof.
  destruct (group_card_turn path_exists image_dir st c);
    rewrite ?skipped_append_item; cbn; try reflexivity. now apply prefix_app_r.
Qed.

Lemma foldl_group_card_skipped_grows cards st :
  skipped_images st `prefix_of` skipped_images (foldl step st cards).
Proof.
  revert st. induction cards as [|c cards IH]; intros st; [reflexivity|].
  cbn [foldl]. etrans; [apply group_card_skipped_grows | apply IH].
Qed.

Lemma accounted_mono st st' n :
  grows st st' -> skipped_images st `prefix_of` skipped_images st' ->
  accounted st n -> accounted st' n.
Proof.
  intros Hg [k Hk] [H | [H | H]].
  - left. apply list_elem_of_fmap in H as (x & -> & Hx).
    apply list_elem_of_fmap. exists x. split; [reflexivity|].
    eapply elem_of_sublist; [exact Hx | apply grows_placed, Hg].
  - right; left. destruct Hg as (_ & _ & _ & [m ->]). apply elem_of_app. now left.
  - right; right. rewrite Hk, fmap_app. apply elem_of_app. now left.
Qed.

Lemma group_card_accounted st c :
  grouping_inv st -> accounted (step st c) (name c).
Proof.
  intros (Hn & _).
  destruct (group_card_turn path_exists image_dir st c)
    as [Hseen|p Hseen Hf Hin|p Hseen Hf Hin|Hseen Hf Hd|Hseen Hf Hd].
  - left. now apply Hn.
  - right; right. cbn. rewrite fmap_app. apply elem_of_app. right. apply list_elem_of_here.
  - left. apply list_elem_of_fmap. eexists. split; [|apply placed_elem_append_item; now left].
    reflexivity.
  - left. apply list_elem_of_fmap. eexists. split; [|apply placed_elem_append_item; now left].
    reflexivity.
  - right; left. cbn. apply elem_of_app. right. apply list_elem_of_here.
Qed.

Lemma group_cards_accounted cards c :
  c ∈ cards -> accounted (group_cards path_exists image_dir cards) (name c).
Proof.
  intros Hc. apply list_elem_of_split in Hc as (pre & post & ->).
  unfold group_cards. rewrite foldl_app. cbn [foldl].
  eapply accounted_mono;
    [apply foldl_group_card_grows | apply foldl_group_card_skipped_grows|].
  apply group_card_accounted, foldl_group_card_inv, grouping_init_inv.
Qed.

Lemma draw_item_image n p d :
  p <> [] -> path_exists p = true ->
  draw_item path_exists {| item_name := n; image_path := Some p; description := d |}
  = DrawImage p.
Proof.
  intros Hp He. unfold draw_item. cbn [image_path from_option id].
  destruct p; [congruence|]. cbn [truthy andb]. now rewrite He.
Qed.

Lemma group_card_reports_sound seen st c :
  grouping_inv st -> reports_sound path_exists image_dir seen st ->
  reports_sound path_exists image_dir (seen ++ [c]) (step st c).
Proof.
  intros (Hn & Hp & _ & _) (Hm & Hs & Hi).
  assert (forall x, x ∈ seen -> x ∈ seen ++ [c]) as Hold
      by (intros; apply elem_of_app; now left).
  assert (c ∈ seen ++ [c]) as Hnew by (apply elem_of_app; right; apply list_elem_of_here).
  assert (reports_sound path_exists image_dir (seen ++ [c]) st) as Hst.
  { split; [|split].
    - intros n H. destruct (Hm n H) as (x & ? & ?). eauto.
    - intros n p H. destruct (Hs n p H) as ((x & ? & ?) & ?). eauto.
    - intros item H. destruct (Hi item H) as (x & ? & ?). eauto. }
  clear Hm Hs Hi. destruct Hst as (Hm & Hs & Hi).
  destruct (group_card_turn path_exists image_dir st c)
    as [Hseen|p Hseen Hf Hin|p Hseen Hf Hin|Hseen Hf Hd|Hseen Hf Hd].
  - exact (conj Hm (conj Hs Hi)).
  - split; [exact Hm|]. split; [|exact Hi]. intros n q H. cbn in H.
    apply elem_of_app in H as [H | H]; [now apply Hs|].
    apply list_elem_of_singleton in H as [= -> ->]. split; [eauto|].
    apply Hp, list_elem_of_omap in Hin as (item & Hitem & Hpath).
    exists item. repeat split; try assumption. intros E. apply Hseen, Hn.
    rewrite <- E. now apply list_elem_of_fmap_2.
  - split; [|split].
    + intros n H. rewrite (proj2 (proj2 (seen_append_item _ _ _))) in H. now apply Hm.
    + intros n q H. rewrite skipped_append_item in H.
      destruct (Hs n q H) as (Hc & item & Hitem & ?). split; [exact Hc|].
      exists item. split; [apply placed_elem_append_item; now right | assumption].
    + intros item H. apply placed_elem_append_item in H as [-> | H]; [|now apply Hi].
      exists c. cbn [item_name image_path description]. repeat split; try assumption.
      pose proof (find_image_file_exists _ _ _ _ _ Hf) as He.
      rewrite draw_item_image; [discriminate | | exact He].
      eapply find_image_file_nonempty, Hf.
  - split; [|split].
    + intros n H. rewrite (proj2 (proj2 (seen_append_item _ _ _))) in H. now apply Hm.
    + intros n q H. rewrite skipped_append_item in H.
      destruct (Hs n q H) as (Hc & item & Hitem & ?). split; [exact Hc|].
      exists item. split; [apply placed_elem_append_item; now right | assumption].
    + intros item H. apply placed_elem_append_item in H as [-> | H]; [|now apply Hi].
      exists c. cbn [item_name image_path description]. repeat split; try assumption.
      unfold draw_item. cbn [image_path description truthy andb]. rewrite Hd. discriminate.
  - split; [|split; [exact Hs | exact Hi]]. intros n H. cbn in H.
    apply elem_of_app in H as [H | H]; [now apply Hm|].
    apply list_elem_of_singleton in H as ->. eauto.
Qed.

Lemma group_cards_reports_sound cards :
  reports_sound path_exists image_dir cards (group_cards path_exists image_dir cards).
Proof.
  induction cards as [|c cards IH] using rev_ind.
  - split; [|split].
    + intros n H. cbn in H. inversion H.
    + intros n p H. cbn in H. inversion H.
    + intros item H. cbn in H. inversion H.
  - unfold group_cards. rewrite foldl_snoc. apply group_card_reports_sound; [|exact IH].
    apply group_cards_inv.
Qed.
End Reports.

Lemma no_slot_for_name {A B} `{EqDecision B} (f : A -> B) (l : list A) (x : B) :
  x ∉ f <$> l -> length (filter (fun a => f a = x) l) = 0.
Proof.
  induction l as [|a l IH]; intros Hx; [reflexivity|].
  rewrite fmap_cons in Hx. apply not_elem_of_cons in Hx as [Hne Hx].
  rewrite filter_cons. case_decide as E; [congruence | now apply IH].
Qed.

Lemma one_slot_for_name {A B} `{EqDecision B} (f : A -> B) (l : list A) (x : B) :
  NoDup (f <$> l) -> x ∈ f <$> l -> length (filter (fun a => f a = x) l) = 1.
Proof.
  induction l as [|a l IH]; intros Hnd Hx; [inversion Hx|].
  rewrite fmap_cons in Hnd, Hx. apply NoDup_cons in Hnd as [Ha Hnd].
  rewrite filter_cons. case_decide as E.
  - cbn [length]. f_equal. apply no_slot_for_name. now rewrite <- E.
  - apply IH; [exact Hnd|]. apply elem_of_cons in Hx as [-> | Hx]; [congruence | exact Hx].
Qed.

(** C9, as stated, fails in its last part: a card that is in the deck
    once need not have a slot.  The second card below resolves to the
    image of the first and is skipped, whatever its count. *)
Lemma unique_card_without_slot :
  let path_exists := only_files [py "/art/Sample-Dragon.jpg"] in
  let c1 := {| name := py "Sample Dragon"; type := Monster; count := 1; edopro_id := None |} in
  let c2 := {| name := py "Sample Dragon!"; type := Monster; count := 2; edopro_id := None |} in
  name c1 <> name c2
  /\ item_name <$> layout_cards (layout path_exists (py "/art") [c1; c2])
     = [py "Sample Dragon"]
  /\ length (filter (fun it => item_name it = name c2)
                    (layout_cards (layout path_exists (py "/art") [c1; c2]))) = 0.
Proof.
  split; [vm_compute; discriminate|]. split; vm_compute; reflexivity.
Qed.

(** C9, amended: two decks that differ only in the counts of their cards
    give the same pages and the same reports.  Whatever its count a card
    takes one slot at most: no name is twice in the layout, and the slots
    of a card's name are one, or none, and then the name is reported as
    missing or in a duplicate-image message. *)
Theorem count_has_no_effect path_exists image_dir deck_name cards1 cards2 :
  Forall2 same_but_count cards1 cards2 ->
  layout path_exists image_dir cards1 = layout path_exists image_dir cards2
  /\ generate_deck_pdf path_exists image_dir deck_name cards1
     = generate_deck_pdf path_exists image_dir deck_name cards2
  /\ NoDup (item_name <$> layout_cards (layout path_exists image_dir cards1))
  /\ Forall (fun c =>
               length (filter (fun it => item_name it = name c)
                              (layout_cards (layout path_exists image_dir cards1))) = 1
               \/ (length (filter (fun it => item_name it = name c)
                                  (layout_cards (layout path_exists image_dir cards1))) = 0
                   /\ (name c ∈ printed_missing
                                  (generate_deck_pdf path_exists image_dir deck_name cards1)
                       \/ name c ∈ fst <$> printed_skipped
                                    (generate_deck_pdf path_exists image_dir deck_name
                                       cards1))))
            cards1.
Proof.
  intros H. apply (group_cards_same_but_count path_exists image_dir) in H.
  pose proof (group_cards_inv path_exists image_dir cards1) as (_ & _ & Hnd & _).
  split; [unfold layout; now rewrite H|].
  split; [unfold generate_deck_pdf; now rewrite H|].
  rewrite layout_cards_placed. split; [exact Hnd|].
  apply Forall_forall. intros c Hc.
  destruct (decide (name c ∈ item_name <$> placed (group_cards path_exists image_dir cards1)))
    as [Hin | Hout].
  - left. now apply one_slot_for_name.
  - right. split; [now apply no_slot_for_name|].
    destruct (group_cards_accounted path_exists image_dir cards1 c Hc) as [H1 | H1];
      [contradiction | exact H1].
Qed.

Lemma count_has_no_effect_witness :
  let path_exists := only_files [py "/art/Sample-Dragon.jpg"] in
  let c1 := {| name := py "Sample Dragon"; type := Monster; count := 1; edopro_id := None |} in
  let c3 := {| name := py "Sample Dragon"; type := Monster; count := 3; edopro_id := None |} in
  generate_deck_pdf path_exists (py "/art") (py "Deck") [c1]
  = generate_deck_pdf path_exists (py "/art") (py "Deck") [c3].
Proof.
  intros path_exists c1 c3.
  apply (count_has_no_effect path_exists (py "/art") (py "Deck") [c1] [c3]).
  repeat constructor.
Defined.

(** X10: no card of the deck vanishes without a trace: its name is in the
    layout, or in the list of missing cards, or in a duplicate-image
    message. *)
Theorem every_card_accounted_for path_exists image_dir deck_name cards :
  Forall (fun c =>
            name c ∈ item_name <$> layout_cards (layout path_exists image_dir cards)
            \/ name c ∈ printed_missing
                          (generate_deck_pdf path_exists image_dir deck_name cards)
            \/ name c ∈ fst <$> printed_skipped
                                  (generate_deck_pdf path_exists image_dir deck_name cards))
         cards.
Proof.
  apply Forall_forall. intros c Hc. rewrite layout_cards_placed.
  exact (group_cards_accounted path_exists image_dir cards c Hc).
Qed.

(** X11: a name is reported missing only for a card of the deck that has
    neither an image nor a description. *)
Theorem missing_report_sound path_exists image_dir deck_name cards :
  Forall (fun n =>
            exists c, c ∈ cards /\ name c = n
                      /\ find_image_file path_exists (name c) image_dir (edopro_id c) = None
                      /\ truthy (get_card_descriptions !! n) = false)
         (printed_missing (generate_deck_pdf path_exists image_dir deck_name cards)).
Proof.
  apply Forall_forall. intros n Hn.
  exact (proj1 (group_cards_reports_sound path_exists image_dir cards) n Hn).
Qed.

(** X12: a duplicate-image message names a card of the deck and the image it
    resolves to, and that image is in the layout under another name. *)
Theorem skipped_report_sound path_exists image_dir deck_name cards :
  Forall (fun np =>
            (exists c, c ∈ cards /\ name c = np.1
                       /\ find_image_file path_exists (name c) image_dir (edopro_id c)
                          = Some np.2)
            /\ exists item, item ∈ layout_cards (layout path_exists image_dir cards)
                            /\ image_path item = Some np.2 /\ item_name item <> np.1)
         (printed_skipped (generate_deck_pdf path_exists image_dir deck_name cards)).
Proof.
  apply Forall_forall. intros [n p] H. rewrite layout_cards_placed.
  exact (proj1 (proj2 (group_cards_reports_sound path_exists image_dir cards)) n p H).
Qed.

(** X13: every card of the layout is a card of the deck, with the image the
    resolver finds for it and the description of its name. *)
Theorem layout_cards_from_deck path_exists image_dir cards :
  Forall (fun item =>
            exists c, c ∈ cards /\ name c = item_name item
                      /\ find_image_file path_exists (name c) image_dir (edopro_id c)
                         = image_path item
                      /\ description item = get_card_descriptions !! name c)
         (layout_cards (layout path_exists image_dir cards)).
Proof.
  apply Forall_forall. intros item H. rewrite layout_cards_placed in H.
  destruct (proj2 (proj2 (group_cards_reports_sound path_exists image_dir cards)) item H)
    as (c & H1 & H2 & H3 & H4 & _).
  now exists c.
Qed.

(** ** More on the pages *)

Lemma create_pdf_page_contents path_exists l :
  content <$> create_pdf_page path_exists l = draw_item path_exists <$> take 4 l.
Proof.
  unfold create_pdf_page. apply list_eq. intros i.
  rewrite !list_lookup_fmap, list_lookup_imap.
  now destruct (take 4 l !! i).
Qed.

(** X14: a page fills the cells of the grid row by row from the top left, so
    no two cards of a page share a cell. *)
Theorem create_pdf_page_cells path_exists (l : list card_item) :
  (fun s => (row s, col s)) <$> create_pdf_page path_exists l = take (length l) grid.
Proof.
  unfold create_pdf_page.
  destruct l as [|a [|b [|c [|d l]]]]; try reflexivity.
  cbn. now rewrite take_nil.
Qed.

Lemma pages_of_type t l : Forall (fun pg => page_type pg = t) (pages_of t l).
Proof.
  apply Forall_forall. intros pg H. apply list_elem_of_lookup in H as [i H].
  now apply pages_of_lookup in H.
Qed.

Lemma pages_of_length t (l : list card_item) : length (pages_of t l) = (length l + 3) / 4.
Proof. unfold pages_of, range4. now rewrite !length_fmap, length_seq. Qed.

Lemma filter_pages_of t t' l :
  filter (fun pg => page_type pg = t) (pages_of t' l)
  = if decide (t' = t) then pages_of t' l else [].
Proof.
  pose proof (pages_of_type t' l) as H. induction H as [|pg ps Hpg _ IH].
  - now case_decide.
  - rewrite filter_cons, IH, Hpg. now case_decide.
Qed.

Lemma section_cards_layout_of t st : section_cards t (layout_of st) = cards_of t st.
Proof.
  unfold section_cards, layout_of. rewrite !filter_app, !filter_pages_of.
  destruct t; repeat case_decide; try congruence;
    rewrite ?app_nil_r; cbn [app]; apply pages_of_concat.
Qed.

(** X15: the Monster pages come first, then the Spell pages, then the Trap
    pages, and a section of [n] cards has [(n + 3) / 4] pages: none when it
    is empty. *)
Theorem layout_sections_in_order path_exists image_dir cards :
  let l := layout path_exists image_dir cards in
  page_type <$> l
  = replicate ((length (section_cards Monster l) + 3) / 4) Monster
    ++ replicate ((length (section_cards Spell l) + 3) / 4) Spell
    ++ replicate ((length (section_cards Trap l) + 3) / 4) Trap.
Proof.
  cbv zeta. unfold layout. rewrite !section_cards_layout_of. cbn [cards_of].
  unfold layout_of. rewrite !fmap_app.
  assert (forall t l, page_type <$> pages_of t l = replicate ((length l + 3) / 4) t) as H.
  { intros t l. rewrite <- (pages_of_length t l).
    pose proof (pages_of_type t l) as H. induction H as [|pg ps Hpg _ IH]; [reflexivity|].
    cbn. now rewrite Hpg, IH. }
  now rewrite !H.
Qed.

Lemma cards_of_append_item t t' item st :
  cards_of t (append_item t' item st)
  = cards_of t st ++ (if decide (t' = t) then [item] else []).
Proof. destruct t, t'; cbn; now rewrite ?app_nil_r. Qed.

Lemma group_card_cards_of path_exists image_dir t st c :
  exists l, item_name <$> cards_of t (group_card path_exists image_dir st c)
            = (item_name <$> cards_of t st) ++ l
            /\ l `sublist_of` name <$> filter (fun c => type c = t) [c].
Proof.
  assert (forall item st', item_name item = name c ->
            exists l, item_name <$> cards_of t (append_item (type c) item st')
                      = (item_name <$> cards_of t st') ++ l
                      /\ l `sublist_of` name <$> filter (fun c => type c = t) [c]) as Happ.
  { intros item st' Hitem. rewrite cards_of_append_item, fmap_app, filter_cons, filter_nil.
    case_decide.
    - exists [name c]. cbn [fmap list_fmap]. rewrite Hitem. split; reflexivity.
    - exists []. split; [reflexivity | apply sublist_nil_l]. }
  destruct (group_card_turn path_exists image_dir st c);
    try (exists []; rewrite app_nil_r; split;
         [now destruct t | apply sublist_nil_l]).
  - apply (Happ _ (see_image p (see_card (name c) st))). reflexivity.
  - apply (Happ _ (see_card (name c) st)). reflexivity.
Qed.

Lemma foldl_group_card_cards_of path_exists image_dir t cards st :
  exists l, item_name <$> cards_of t (foldl (group_card path_exists image_dir) st cards)
            = (item_name <$> cards_of t st) ++ l
            /\ l `sublist_of` name <$> filter (fun c => type c = t) cards.
Proof.
  revert st. induction cards as [|c cards IH]; intros st.
  - exists []. rewrite app_nil_r. split; [reflexivity | apply sublist_nil_l].
  - cbn [foldl]. destruct (group_card_cards_of path_exists image_dir t st c) as (l1 & E1 & H1).
    destruct (IH (group_card path_exists image_dir st c)) as (l2 & E2 & H2).
    exists (l1 ++ l2). rewrite E2, E1, <- app_assoc. split; [reflexivity|].
    change (c :: cards) with ([c] ++ cards). rewrite filter_app, fmap_app.
    now apply sublist_app.
Qed.

(** X16: the cards on the pages of a section are cards of the deck of that
    type, in the order of the deck. *)
Theorem layout_keeps_deck_order path_exists image_dir cards (t : card_type) :
  item_name <$> section_cards t (layout path_exists image_dir cards)
  `sublist_of` name <$> filter (fun c => type c = t) cards.
Proof.
  unfold layout. rewrite section_cards_layout_of. unfold group_cards.
  destruct (foldl_group_card_cards_of path_exists image_dir t cards grouping_init)
    as (l & -> & H).
  now destruct t.
Qed.

(** X17: every card of the layout is drawn once, page after page in the order
    of the layout, and none of the cells drawn is left blank: it shows the
    image, which exists, or the description. *)
Theorem every_slot_drawn path_exists image_dir deck_name cards :
  content <$> concat (slots <$> pdf_pages
                        (generate_deck_pdf path_exists image_dir deck_name cards))
  = draw_item path_exists <$> layout_cards (layout path_exists image_dir cards)
  /\ Forall (fun pp => Forall (fun s => content s <> DrawNothing) (slots pp))
            (pdf_pages (generate_deck_pdf path_exists image_dir deck_name cards)).
Proof.
  assert (forall pg, pg ∈ layout path_exists image_dir cards ->
            content <$> slots (render path_exists deck_name pg)
            = draw_item path_exists <$> page_cards pg) as Hpage.
  { intros pg Hpg. cbn [slots render]. rewrite create_pdf_page_contents.
    assert (Forall (fun pg => 0 < length (page_cards pg) <= 4)
                   (layout path_exists image_dir cards)) as Hb.
    { unfold layout, layout_of. rewrite !Forall_app. repeat split; apply pages_of_bound. }
    rewrite Forall_forall in Hb. rewrite take_ge; [reflexivity|]. apply Hb, Hpg. }
  split.
  - unfold generate_deck_pdf. cbn [pdf_pages]. fold (layout path_exists image_dir cards).
    unfold layout_cards. revert Hpage.
    induction (layout path_exists image_dir cards) as [|pg l IH]; intros Hpage; [reflexivity|].
    cbn [fmap list_fmap concat]. rewrite !fmap_app, Hpage by apply list_elem_of_here.
    f_equal. apply IH. intros pg' H. apply Hpage. now apply list_elem_of_further.
  - unfold generate_deck_pdf. cbn [pdf_pages]. fold (layout path_exists image_dir cards).
    apply Forall_fmap, Forall_forall. intros pg Hpg. cbn [compose].
    apply (Forall_fmap content (fun d => d <> DrawNothing)). rewrite (Hpage pg Hpg).
    apply Forall_fmap, Forall_forall. intros item Hitem. cbn [compose].
    assert (item ∈ placed (group_cards path_exists image_dir cards)) as Hin.
    { rewrite <- layout_cards_placed. unfold layout_cards.
      apply list_elem_of_In, in_concat. exists (page_cards pg).
      split; apply list_elem_of_In; [now apply list_elem_of_fmap_2 | exact Hitem]. }
    destruct (proj2 (proj2 (group_cards_reports_sound path_exists image_dir cards)) item Hin)
      as (c & _ & _ & _ & _ & H).
    exact H.
Qed.

(** ** The text box *)

Lemma split_from_app_space acc a sp b :
  is_space sp = true ->
  split_from acc (a ++ sp :: b) = split_from acc a ++ split b.
Proof.
  intros Hsp. revert acc. induction a as [|c a IH]; intros acc.
  - cbn. rewrite Hsp. now destruct acc.
  - cbn [app split_from]. destruct (is_space c); [|apply IH].
    destruct acc; now rewrite IH.
Qed.

Lemma split_from_word acc w :
  Forall (fun c => is_space c = false) w -> acc ++ w <> [] ->
  split_from acc w = [acc ++ w].
Proof.
  intros Hw. revert acc. induction Hw as [|c w Hc _ IH]; intros acc Hne.
  - rewrite app_nil_r in *. cbn. now destruct acc.
  - cbn [split_from]. rewrite Hc, IH, <- app_assoc; [reflexivity|].
    rewrite <- app_assoc. exact Hne.
Qed.

(** The words of [split]: not empty, without white space. *)
Lemma split_from_words acc s :
  Forall (fun c => is_space c = false) acc ->
  Forall (fun w => w <> [] /\ Forall (fun c => is_space c = false) w) (split_from acc s).
Proof.
  revert acc. induction s as [|c s IH]; intros acc Hacc.
  - cbn. destruct acc; repeat constructor; [discriminate | now inversion Hacc..].
  - cbn [split_from]. destruct (is_space c) eqn:Hc.
    + destruct acc; [apply IH; constructor|].
      constructor; [split; [discriminate | exact Hacc] | apply IH; constructor].
    + apply IH, Forall_app. split; [exact Hacc | now repeat constructor].
Qed.

Lemma split_line_word line word :
  word <> [] -> Forall (fun c => is_space c = false) word ->
  split (line ++ py " " ++ word) = split line ++ [word].
Proof.
  intros Hne Hw. unfold split. change (py " " ++ word) with (" "%char :: word).
  rewrite split_from_app_space by reflexivity. f_equal.
  unfold split. now rewrite split_from_word.
Qed.

Lemma wrap_loop_words width line words :
  Forall (fun w => w <> [] /\ Forall (fun c => is_space c = false) w) words ->
  concat (split <$> wrap_loop width line words) = split line ++ words.
Proof.
  intros H. revert line. induction H as [|word rest [Hne Hw] _ IH]; intros line.
  - cbn. destruct line; cbn; [reflexivity|]. now rewrite !app_nil_r.
  - cbn [wrap_loop]. destruct (length (line ++ py " " ++ word) <=? width).
    + rewrite IH. destruct line as [|c line]; cbn [nonempty].
      * unfold split at 1. now rewrite split_from_word.
      * rewrite split_line_word by assumption. now rewrite <- app_assoc.
    + rewrite fmap_app, concat_app, IH. unfold split at 2.
      rewrite split_from_word by assumption. cbn [app].
      destruct line; cbn; [reflexivity|]. now rewrite app_nil_r.
Qed.

Lemma wrap_loop_bound width line words :
  length line <= width \/ line ∈ words ->
  Forall (fun l => length l <= width \/ l ∈ words) (wrap_loop width line words).
Proof.
  assert (forall seen line,
            length line <= width \/ line ∈ seen ++ words ->
            Forall (fun l => length l <= width \/ l ∈ seen ++ words)
                   (wrap_loop width line words)) as H; [|apply (H [])].
  induction words as [|word rest IH]; intros seen l Hl.
  - cbn. destruct l; cbn; [constructor | constructor; [exact Hl | constructor]].
  - cbn [wrap_loop].
    replace (seen ++ word :: rest) with ((seen ++ [word]) ++ rest) in *
      by now rewrite <- app_assoc.
    destruct (length (l ++ py " " ++ word) <=? width) eqn:E.
    + apply IH. left. apply Nat.leb_le in E. rewrite !length_app in E.
      destruct l; cbn [nonempty]; [cbn in E; lia | rewrite !length_app; exact E].
    + apply Forall_app. split.
      * destruct l; cbn [nonempty]; [constructor | constructor; [exact Hl | constructor]].
      * apply IH. right. rewrite !elem_of_app, list_elem_of_singleton. tauto.
Qed.

(** X18: a line of the card name has at most 20 characters, unless it is a
    single word of the name that is longer. *)
Theorem name_lines_bound (card_name : str) :
  Forall (fun l => length l <= 20 \/ l ∈ split card_name) (name_lines card_name).
Proof.
  unfold name_lines. destruct (20 <? length card_name) eqn:E.
  - apply wrap_loop_bound. left. cbn. lia.
  - apply Nat.ltb_ge in E. constructor; [now left | constructor].
Qed.

(** X19: wrapping the card name loses no word and keeps the words in order. *)
Theorem name_lines_words (card_name : str) :
  concat (split <$> name_lines card_name) = split card_name.
Proof.
  unfold name_lines. destruct (20 <? length card_name).
  - unfold wrap. rewrite wrap_loop_words; [reflexivity|].
    apply split_from_words. constructor.
  - cbn. apply app_nil_r.
Qed.

Lemma strip_nil_blank s : strip s = [] -> Forall (fun c => is_space c = true) s.
Proof.
  unfold strip. intros H. apply lstrip_by_nil_iff.
  destruct (lstrip_by_head is_space s) as [E | (c & E & Hc)].
  - now destruct (lstrip_by is_space s).
  - pose proof (rstrip_by_head is_space _ c E Hc) as H2. rewrite H in H2. discriminate H2.
Qed.

Lemma split_blank s : Forall (fun c => is_space c = true) s -> split s = [].
Proof. unfold split. induction 1 as [|c s Hc _ IH]; cbn; [reflexivity | now rewrite Hc]. Qed.

(** X20: a line of the description has at most [chars_per_line] characters,
    unless it is a single word of the description that is longer. *)
Theorem desc_lines_bound (chars_per_line : nat) (description : str) :
  Forall (fun l => length l <= chars_per_line
                   \/ exists paragraph, paragraph ∈ split_on nl description
                                        /\ l ∈ split paragraph)
         (desc_lines chars_per_line description).
Proof.
  unfold desc_lines. apply Forall_forall. intros l Hl.
  apply list_elem_of_In, in_concat in Hl as (ls & Hls & Hl).
  apply list_elem_of_In, list_elem_of_fmap in Hls as (paragraph & -> & Hp).
  apply list_elem_of_In in Hl. case_bool_decide.
  - apply list_elem_of_singleton in Hl as ->. left. cbn. lia.
  - pose proof (wrap_loop_bound chars_per_line [] (split paragraph)) as Hb.
    rewrite Forall_forall in Hb. destruct (Hb (or_introl (Nat.le_0_l _)) l Hl) as [H1 | H1];
      [now left | right; eauto].
Qed.

(** X21: wrapping the description loses no word and keeps the words in
    order, paragraph after paragraph. *)
Theorem desc_lines_words (chars_per_line : nat) (description : str) :
  concat (split <$> desc_lines chars_per_line description)
  = concat (split <$> split_on nl description).
Proof.
  unfold desc_lines. induction (split_on nl description) as [|p ps IH]; [reflexivity|].
  cbn [fmap list_fmap concat]. rewrite fmap_app, concat_app, IH. f_equal.
  case_bool_decide as E.
  - cbn. now rewrite (split_blank p (strip_nil_blank p E)).
  - unfold wrap. rewrite wrap_loop_words; [reflexivity|].
    apply split_from_words. constructor.
Qed.

(** ** Card lines *)

Lemma re_card_line_parts :
  re_card_line
  = Seq Bol (Seq (Plus is_digit) (Seq (Chr ".") (Seq (Star is_space)
      (Seq (Grp 1 (PlusLazy is_dot)) re_annotations)))).
Proof. reflexivity. Qed.

(** A greedy repetition takes all the characters of the class in front
    when what follows succeeds there. *)
Lemma star_take {R} p xs rest g (k : @cont R) r :
  Forall (fun c => p c = true) xs ->
  (forall c, head rest = Some c -> p c = false) ->
  k rest g = Some r ->
  star p (xs ++ rest) g k = Some r.
Proof.
  intros Hxs Hrest Hk. induction Hxs as [|x xs Hx _ IH].
  - destruct rest as [|c t]; cbn; [exact Hk|]. now rewrite (Hrest c).
  - cbn [app star]. now rewrite Hx, IH.
Qed.

(** A greedy repetition fails when what follows fails wherever the
    repetition can stop. *)
Lemma star_none {R} p xs rest g (k : @cont R) :
  Forall (fun c => p c = true) xs ->
  (forall c, head rest = Some c -> p c = false) ->
  (forall ys zs, xs = ys ++ zs -> k (zs ++ rest) g = None) ->
  star p (xs ++ rest) g k = None.
Proof.
  intros Hxs Hrest Hk. induction Hxs as [|x xs Hx _ IH].
  - specialize (Hk [] [] eq_refl). destruct rest as [|c t]; cbn; [exact Hk|].
    now rewrite (Hrest c).
  - pose proof (Hk [] (x :: xs) eq_refl) as H0.
    cbn [app star] in *. rewrite Hx, IH; [exact H0|].
    intros ys zs ->. apply (Hk (x :: ys) zs eq_refl).
Qed.

(** A lazy repetition stops at the first place where what follows
    succeeds. *)
Lemma star_lazy_take {R} p xs rest g (k : @cont R) r :
  Forall (fun c => p c = true) xs ->
  (forall ys zs, xs = ys ++ zs -> zs <> [] -> k (zs ++ rest) g = None) ->
  k rest g = Some r ->
  star_lazy p (xs ++ rest) g k = Some r.
Proof.
  intros Hxs Hk Hr. induction Hxs as [|x xs Hx _ IH].
  - destruct rest; cbn; now rewrite Hr.
  - pose proof (Hk [] (x :: xs) eq_refl ltac:(discriminate)) as H0.
    cbn [app star_lazy] in *. rewrite H0. cbn [orelse]. rewrite Hx. apply IH.
    intros ys zs -> Hzs. now apply (Hk (x :: ys) zs eq_refl).
Qed.

Lemma one_hit {R} p c t g (k : @cont R) : p c = true -> one p (c :: t) g k = k t g.
Proof. intros H. cbn. now rewrite H. Qed.

Lemma one_miss {R} p c t g (k : @cont R) : p c = false -> one p (c :: t) g k = None.
Proof. intros H. cbn. now rewrite H. Qed.

Lemma orelse_some {R} (a : option R) b r : a = Some r -> orelse a b = Some r.
Proof. now intros ->. Qed.

Lemma take_matched {A} (xs rest : list A) :
  take (length (xs ++ rest) - length rest) (xs ++ rest) = xs.
Proof.
  rewrite length_app. replace (length xs + length rest - length rest) with (length xs) by lia.
  apply take_app_length.
Qed.

Ltac hit := rewrite one_hit by (first [reflexivity | assumption]); cbn beta.

Lemma star_take1 {R} p c rest g (k : @cont R) r :
  p c = true -> (forall d, head rest = Some d -> p d = false) ->
  k rest g = Some r -> star p (c :: rest) g k = Some r.
Proof. intros Hc. apply (star_take p [c] rest). now constructor. Qed.

Ltac take1 := apply star_take1; [reflexivity | intros ? [= <-]; reflexivity |].

Lemma run_copies_some whole k g :
  k <> [] -> Forall (fun c => is_digit c = true) k ->
  run whole (Cat [Star is_space; re_copies; Eol]) (py " (" ++ k ++ py " copies)") g accept
  = Some (<[3%nat := k]> g).
Proof.
  intros Hne Hk. destruct k as [|d k]; [congruence|]. apply Forall_cons in Hk as [Hd Hk].
  unfold re_copies.
  cbn [Cat foldr run Chr Lit fmap list_fmap py list_ascii_of_string app].
  take1. apply orelse_some. do 2 hit.
  apply star_take; [exact Hk | intros c [= <-]; reflexivity|].
  match goal with
  | |- context [take _ (d :: k ++ ?r)] => change (d :: k ++ r) with ((d :: k) ++ r)
  end.
  rewrite take_matched. take1. do 5 hit. apply orelse_some. do 2 hit. reflexivity.
Qed.

Lemma run_copies_none whole g :
  run whole (Cat [Star is_space; re_copies; Eol]) [] g accept = Some g.
Proof. reflexivity. Qed.

Lemma digit_not_E d : is_digit d = true -> is_chr "E" d = false.
Proof.
  intros Hd. destruct (is_chr "E" d) eqn:E; [|reflexivity].
  apply is_chr_eq in E. subst d. discriminate Hd.
Qed.

Lemma space_not_paren c : is_space c = true -> is_chr "(" c = false.
Proof.
  intros Hc. destruct (is_chr "(" c) eqn:E; [|reflexivity].
  apply is_chr_eq in E. subst c. discriminate Hc.
Qed.

Lemma not_space_not_nl c : is_space c = false -> is_chr nl c = false.
Proof.
  intros Hc. destruct (is_chr nl c) eqn:E; [|reflexivity].
  apply is_chr_eq in E. subst c. discriminate Hc.
Qed.

(** The identifier annotation is not found in front of the copies
    annotation. *)
Lemma run_edopro_body_none {R} whole copies g (k : @cont R) :
  (forall n, copies = Some n -> n <> [] /\ Forall (fun c => is_digit c = true) n) ->
  run whole
    (Cat [ Star is_space; Lit "(EDOPro:"; Star is_space;
           Grp 2 (Plus (fun c => negb (is_chr ")" c))); Chr ")" ])
    (copies_text copies) g k = None.
Proof.
  intros Hc. destruct copies as [n|]; [|reflexivity].
  destruct (Hc n eq_refl) as [Hne Hn]. destruct n as [|d n]; [congruence|].
  apply Forall_cons in Hn as [Hd _].
  cbn [copies_text Cat foldr run Chr Lit fmap list_fmap py list_ascii_of_string app].
  apply (star_none is_space [" "%char]); [repeat constructor | intros c [= <-]; reflexivity|].
  intros ys zs E. destruct ys as [|y ys].
  - cbn [app] in E. subst zs. reflexivity.
  - injection E as _ E. symmetry in E. apply app_eq_nil in E as [_ ->].
    cbn [app]. hit. now rewrite one_miss by now apply digit_not_E.
Qed.

Lemma run_annotations whole id copies g :
  (forall i, id = Some i ->
     i <> [] /\ Forall (fun c => is_chr ")" c = false) i
     /\ forall c, head i = Some c -> is_space c = false) ->
  (forall n, copies = Some n -> n <> [] /\ Forall (fun c => is_digit c = true) n) ->
  run whole re_annotations (id_text id ++ copies_text copies) g accept
  = Some (match copies with
          | Some k => <[3%nat := k]> (match id with Some i => <[2%nat := i]> g | None => g end)
          | None => match id with Some i => <[2%nat := i]> g | None => g end
          end).
Proof.
  intros Hid Hc.
  assert (forall g, run whole (Cat [Star is_space; re_copies; Eol]) (copies_text copies) g accept
                    = Some (match copies with Some k => <[3%nat := k]> g | None => g end))
    as Hcopies.
  { intros g'. destruct copies as [n|]; [|reflexivity].
    destruct (Hc n eq_refl). now apply run_copies_some. }
  unfold re_annotations, re_edopro. cbn [Cat foldr]. cbn [run].
  destruct id as [i|].
  - destruct (Hid i eq_refl) as (Hne & Hi & Hhead).
    destruct i as [|c i]; [congruence|]. apply Forall_cons in Hi as [Hc1 Hi].
    apply orelse_some. cbn [id_text]. rewrite <- !app_assoc.
    cbn [Cat foldr run Chr Lit fmap list_fmap py list_ascii_of_string app].
    take1. do 8 hit.
    apply star_take1; [reflexivity | intros ? [= <-]; now apply Hhead |].
    rewrite one_hit by now rewrite Hc1. cbn beta.
    apply star_take;
      [eapply Forall_impl; [exact Hi|]; cbn beta; now intros ? -> | intros ? [= <-]; reflexivity|].
    match goal with
    | |- context [take _ (c :: i ++ ?r)] => change (c :: i ++ r) with ((c :: i) ++ r)
    end.
    rewrite take_matched. hit.
    destruct copies; apply Hcopies.
  - cbn [id_text app]. pose proof (run_edopro_body_none whole copies g
      (fun s' g' => star is_space s' g'
         (fun s'0 g'0 => run whole re_copies s'0 g'0
            (fun s'1 g'1 => run whole Eol s'1 g'1 (fun s'2 g'2 => accept s'2 g'2)))) Hc) as Hb.
    cbn [Cat foldr run] in Hb. rewrite Hb. cbn [orelse].
    destruct copies; apply Hcopies.
Qed.

(** After a part of the name the annotations do not match. *)
Lemma run_annotations_none {R} whole sps c more g (k : @cont R) :
  Forall (fun c => is_space c = true) sps -> is_space c = false -> is_chr "(" c = false ->
  run whole re_annotations (sps ++ c :: more) g k = None.
Proof.
  intros Hsps Hc Hp.
  assert (forall {R'} zs (k' : @cont R') g', zs `suffix_of` sps ->
            one (is_chr "(") (zs ++ c :: more) g' k' = None) as Hparen.
  { intros R' zs k' g' Hzs. destruct zs as [|z zs]; cbn [app]; [now apply one_miss|].
    apply one_miss, space_not_paren.
    eapply (Forall_suffix _ _ _ Hzs) in Hsps. now apply Forall_cons in Hsps as [-> _]. }
  unfold re_annotations, re_edopro, re_copies.
  cbn [Cat foldr run Chr Lit fmap list_fmap py list_ascii_of_string].
  rewrite star_none; [cbn [orelse] | exact Hsps | now intros ? [= <-] |].
  - apply star_none; [exact Hsps | now intros ? [= <-] |].
    intros ys zs ->. rewrite Hparen by now exists ys. cbn [orelse].
    destruct zs as [|z zs]; cbn [app].
    + destruct more; [now rewrite not_space_not_nl | reflexivity].
    + now destruct zs.
  - intros ys zs ->. apply Hparen. now exists ys.
Qed.

Lemma split_at_first_word zs :
  (forall c, last zs = Some c -> is_space c = false) -> zs <> [] ->
  exists sps c more, zs = sps ++ c :: more
                     /\ Forall (fun c => is_space c = true) sps /\ is_space c = false.
Proof.
  induction zs as [|z zs IH]; intros Hlast Hne; [congruence|].
  destruct (is_space z) eqn:Hz.
  - destruct zs as [|y zs].
    + specialize (Hlast z eq_refl). congruence.
    + destruct IH as (sps & c & more & -> & Hs & Hc); [|discriminate|].
      { intros c. rewrite last_cons_cons in Hlast. apply Hlast. }
      exists (z :: sps), c, more. repeat split; [now constructor | exact Hc].
  - exists [], z, zs. now repeat split.
Qed.

Lemma re_match_card_line ordinal card_name id copies :
  ordinal <> [] -> Forall (fun c => is_digit c = true) ordinal ->
  card_name <> [] ->
  Forall (fun c => is_dot c = true /\ is_chr "(" c = false) card_name ->
  no_space_around card_name ->
  (forall i, id = Some i ->
     i <> [] /\ Forall (fun c => is_chr ")" c = false) i
     /\ forall c, head i = Some c -> is_space c = false) ->
  (forall n, copies = Some n -> n <> [] /\ Forall (fun c => is_digit c = true) n) ->
  re_match re_card_line (card_line ordinal card_name id copies)
  = Some (card_line_groups card_name id copies).
Proof.
  intros Ho1 Ho Hn1 Hn [Hhead Hlast] Hid Hc.
  destruct ordinal as [|d o]; [congruence|]. apply Forall_cons in Ho as [Hd Ho].
  destruct card_name as [|n0 n]; [congruence|].
  pose proof Hn as Hn0. apply Forall_cons in Hn0 as [[Hdot0 _] Hn'].
  unfold re_match. rewrite re_card_line_parts. cbn [run Chr]. rewrite Nat.eqb_refl.
  unfold card_line. cbn [app py list_ascii_of_string].
  hit. apply star_take; [exact Ho | intros ? [= <-]; reflexivity|].
  hit. apply star_take1; [reflexivity | intros ? [= <-]; now apply Hhead |].
  hit.
  apply star_lazy_take.
  - eapply Forall_impl; [exact Hn'|]. now intros ? [? ?].
  - intros ys zs E Hzs.
    destruct (split_at_first_word zs) as (sps & c & more & -> & Hs & Hcs); [|exact Hzs|].
    { intros c Hc'. apply Hlast. rewrite E, last_cons, last_app, Hc'. reflexivity. }
    rewrite <- app_assoc. cbn [app]. apply run_annotations_none; [exact Hs | exact Hcs|].
    rewrite E in Hn'. rewrite !Forall_app, Forall_cons in Hn'. tauto.
  - match goal with
    | |- context [take _ (n0 :: n ++ ?r)] => change (n0 :: n ++ r) with ((n0 :: n) ++ r)
    end.
    rewrite take_matched. rewrite (run_annotations _ id copies _ Hid Hc).
    unfold card_line_groups. now destruct id, copies.
Qed.

Lemma strip_no_space_around s : no_space_around s -> strip s = s.
Proof.
  intros [Hh Hl]. unfold strip. rewrite (lstrip_by_id is_space s Hh).
  unfold rstrip_by. rewrite lstrip_by_id; [apply reverse_involutive|].
  intros c. rewrite head_reverse. apply Hl.
Qed.

Lemma last_id_text id :
  last (id_text id) = match id with Some _ => Some ")"%char | None => None end.
Proof.
  destruct id as [i|]; [|reflexivity]. unfold id_text.
  change (py ")") with ([")"%char]). now rewrite !app_assoc, last_snoc.
Qed.

Lemma last_copies_text copies :
  last (copies_text copies) = match copies with Some _ => Some ")"%char | None => None end.
Proof.
  destruct copies as [k|]; [|reflexivity]. unfold copies_text.
  change (py " copies)") with (py " copies" ++ [")"%char]). now rewrite !app_assoc, last_snoc.
Qed.

Lemma card_line_no_space_around ordinal card_name id copies :
  ordinal <> [] -> Forall (fun c => is_digit c = true) ordinal ->
  card_name <> [] -> no_space_around card_name ->
  no_space_around (card_line ordinal card_name id copies).
Proof.
  intros Ho1 Ho Hn1 [_ Hlast]. destruct ordinal as [|d o]; [congruence|].
  apply Forall_cons in Ho as [Hd _]. split.
  - intros c [= <-]. destruct (is_space d) eqn:E; [|reflexivity].
    revert Hd E. clear. destruct d as [[] [] [] [] [] [] [] []]; vm_compute; congruence.
  - intros c. unfold card_line.
    rewrite !last_app, last_copies_text, last_id_text.
    destruct copies; [now intros [= <-]|]. destruct id; [now intros [= <-]|].
    destruct (last card_name) eqn:E; [apply Hlast|].
    apply last_None in E. congruence.
Qed.

Lemma card_of_match_card_line card_name id copies t :
  card_of_match (card_line_groups card_name id copies) t
  = {| name := strip card_name; type := t;
       count := match copies with Some k => int k | None => 1%N end;
       edopro_id := strip <$> id |}.
Proof.
  unfold card_of_match, card_line_groups.
  destruct id, copies; cbv zeta; now simplify_map_eq.
Qed.

(** X22: a card line written as the comment in the source shows it parses to
    the card it was written from: the name, the identifier and the number
    of copies come back, the type is that of the header above, and a card
    without the copies annotation counts once.  The number of copies has
    at most [max_str_digits] digits, the longest string [int] accepts. *)
Theorem card_line_parses (pre : list str) (h : str) (t : card_type)
    (ordinal card_name : str) (id copies : option str) :
  header (strip h) = Some t ->
  ordinal <> [] -> Forall (fun c => is_digit c = true) ordinal ->
  card_name <> [] ->
  Forall (fun c => is_dot c = true /\ is_chr "(" c = false) card_name ->
  no_space_around card_name ->
  (forall i, id = Some i ->
     i <> [] /\ Forall (fun c => is_chr ")" c = false) i
     /\ forall c, head i = Some c -> is_space c = false) ->
  (forall n, copies = Some n ->
     n <> [] /\ Forall (fun c => is_digit c = true) n /\ length n <= max_str_digits) ->
  parse_deck_new_format (pre ++ [h; card_line ordinal card_name id copies])
  = parse_deck_new_format pre
    ++ [ {| name := card_name; type := t;
            count := match copies with Some k => int k | None => 1%N end;
            edopro_id := strip <$> id |} ].
Proof.
  intros Hh Ho1 Ho Hn1 Hn Hns Hid Hc'.
  assert (forall n, copies = Some n -> n <> [] /\ Forall (fun c => is_digit c = true) n) as Hc
      by (intros n E; destruct (Hc' n E) as (? & ? & _); now split).
  unfold parse_deck_new_format. rewrite foldl_app. cbn [foldl].
  destruct (foldl parse_line ([], None) pre) as [cards cur]. cbn [fst].
  rewrite (parse_line_header cards cur h t Hh). unfold parse_line.
  rewrite (strip_no_space_around _ (card_line_no_space_around _ _ id copies Ho1 Ho Hn1 Hns)).
  rewrite (re_match_card_line _ _ _ _ Ho1 Ho Hn1 Hn Hns Hid Hc).
  assert (header (card_line ordinal card_name id copies) = None) as ->.
  { destruct ordinal as [|d o]; [congruence|]. apply Forall_cons in Ho as [Hd _].
    now apply (header_not_digit _ d
                 (o ++ py ". " ++ card_name ++ id_text id ++ copies_text copies)). }
  cbn [fst]. rewrite card_of_match_card_line.
  now rewrite (strip_no_space_around _ Hns).
Qed.

Lemma card_line_parses_witness :
  parse_deck_new_format
    ([] ++ [py "SPELL CARDS:";
            card_line (py "12") (py "Dragon's Inferno") (Some (py "160301001")) (Some (py "3"))])
  = parse_deck_new_format []
    ++ [ {| name := py "Dragon's Inferno"; type := Spell;
            count := int (py "3"); edopro_id := strip <$> Some (py "160301001") |} ].
Proof.
  apply (card_line_parses [] (py "SPELL CARDS:") Spell (py "12") (py "Dragon's Inferno")
           (Some (py "160301001")) (Some (py "3"))).
  - vm_compute. reflexivity.
  - discriminate.
  - repeat constructor.
  - discriminate.
  - repeat constructor.
  - split; intros c [= <-]; reflexivity.
  - intros i [= <-]. split; [discriminate|]. split; [repeat constructor|].
    intros c [= <-]. reflexivity.
  - intros n [= <-]. split; [discriminate|]. split; [repeat constructor|].
    unfold max_str_digits. cbn. lia.
Defined.

(** ** What a match leaves of the subject and of the groups *)

Lemma one_some {R} p s g (k : @cont R) res :
  one p s g k = Some res -> exists c t, s = c :: t /\ p c = true /\ k t g = Some res.
Proof.
  destruct s as [|c t]; cbn; [discriminate|].
  destruct (p c) eqn:E; [|discriminate]. intros H. now exists c, t.
Qed.

Lemma star_some {R} p s g (k : @cont R) res :
  star p s g k = Some res -> exists rest, rest `suffix_of` s /\ k rest g = Some res.
Proof.
  induction s as [|c t IH]; cbn [star].
  - intros H. now exists [].
  - destruct (p c); [|intros H; now exists (c :: t)].
    destruct (star p t g k) as [r|] eqn:E; cbn [orelse].
    + intros [= <-]. destruct (IH eq_refl) as (rest & Hs & Hk).
      exists rest. split; [now apply suffix_cons_r | exact Hk].
    + intros H. now exists (c :: t).
Qed.

Lemma star_lazy_some {R} p s g (k : @cont R) res :
  star_lazy p s g k = Some res -> exists rest, rest `suffix_of` s /\ k rest g = Some res.
Proof.
  induction s as [|c t IH]; cbn [star_lazy].
  - destruct (k [] g) eqn:E; cbn [orelse]; [|discriminate]. intros [= <-]. now exists [].
  - destruct (k (c :: t) g) eqn:E; cbn [orelse].
    + intros [= <-]. now exists (c :: t).
    + destruct (p c); [|discriminate]. intros H. destruct (IH H) as (rest & Hs & Hk).
      exists rest. split; [now apply suffix_cons_r | exact Hk].
Qed.

(** A match hands a suffix of the subject on, and leaves the groups it
    does not have as they are. *)
Ltac here := split; [reflexivity | split; [reflexivity | assumption]].

Lemma run_some {R} n whole r : forall s g (k : @cont R) res,
  has_group n r = false ->
  run whole r s g k = Some res ->
  exists s' g', s' `suffix_of` s /\ g' !! n = g !! n /\ k s' g' = Some res.
Proof.
  induction r as [| | |p|r1 IH1 r2 IH2|r1 IH1|p|p|p|m r1 IH1];
    intros s g k res Hn H; cbn [run has_group] in *.
  - (exists s, g; here).
  - destruct (length s =? whole); [(exists s, g; here) | discriminate].
  - destruct s as [|c [|? ?]]; [(exists [], g; here)| |discriminate].
    destruct (is_chr nl c); [(exists [c], g; here) | discriminate].
  - apply one_some in H as (c & t & -> & _ & H). exists t, g.
    split; [now apply suffix_cons_r | now split].
  - apply orb_false_iff in Hn as [Hn1 Hn2].
    apply IH1 in H as (s1 & g1 & Hs1 & Hg1 & H); [|exact Hn1].
    apply IH2 in H as (s2 & g2 & Hs2 & Hg2 & H); [|exact Hn2].
    exists s2, g2. split; [etrans; [exact Hs2 | exact Hs1] | split; [congruence | exact H]].
  - destruct (run whole r1 s g k) as [r|] eqn:E; cbn [orelse] in H.
    + injection H as <-. now apply IH1 in E.
    + (exists s, g; here).
  - apply star_some in H as (rest & Hs & H). exists rest, g. now split.
  - apply one_some in H as (c & t & -> & _ & H).
    apply star_some in H as (rest & Hs & H). exists rest, g.
    split; [now apply suffix_cons_r | now split].
  - apply one_some in H as (c & t & -> & _ & H).
    apply star_lazy_some in H as (rest & Hs & H). exists rest, g.
    split; [now apply suffix_cons_r | now split].
  - apply orb_false_iff in Hn as [Hm Hn]. apply bool_decide_eq_false in Hm.
    apply IH1 in H as (s1 & g1 & Hs1 & Hg1 & H); [|exact Hn].
    exists s1, (<[m := take (length s - length s1) s]> g1).
    split; [exact Hs1 | split; [|exact H]].
    rewrite <- Hg1. apply lookup_insert_ne. exact Hm.
Qed.

Lemma star_lazy_total {R} p xs g (k : @cont R) :
  Forall (fun c => p c = true) xs -> is_Some (k [] g) ->
  exists zs res, zs `suffix_of` xs /\ star_lazy p xs g k = Some res /\ k zs g = Some res.
Proof.
  intros Hxs [r0 H0]. induction Hxs as [|x xs Hx _ IH].
  - exists [], r0. cbn. now rewrite H0.
  - cbn [star_lazy]. destruct (k (x :: xs) g) as [r|] eqn:E; cbn [orelse].
    + now exists (x :: xs), r.
    + rewrite Hx. destruct IH as (zs & res & Hs & H1 & H2).
      exists zs, res. split; [now apply suffix_cons_r | now split].
Qed.

Lemma lstrip_by_split p s :
  exists xs, s = xs ++ lstrip_by p s /\ Forall (fun c => p c = true) xs.
Proof.
  induction s as [|c s (xs & E & H)]; cbn; [now exists []|].
  destruct (p c) eqn:Hc; [|now exists []].
  exists (c :: xs). split; [cbn; now f_equal | now constructor].
Qed.

Lemma strip_last s c : last (strip s) = Some c -> is_space c = false.
Proof.
  unfold strip, rstrip_by. rewrite last_reverse. intros H.
  destruct (lstrip_by_head is_space (reverse (lstrip_by is_space s)))
    as [E | (d & E & Hd)]; congruence.
Qed.

Lemma strip_head_nonempty n c : head n = Some c -> is_space c = false -> strip n <> [].
Proof.
  intros Hh Hc E. unfold strip in E.
  rewrite (lstrip_by_id is_space n) in E by (intros d Hd; congruence).
  pose proof (rstrip_by_head is_space n c Hh Hc) as H. now rewrite E in H.
Qed.

(** The name of a match on a line without white space around it and
    without newline is not blank. *)
Lemma re_match_card_line_name raw g :
  Forall (fun c => is_dot c = true) (strip raw) ->
  re_match re_card_line (strip raw) = Some g ->
  exists n, g !! 1%nat = Some n /\ strip n <> [].
Proof.
  set (line := strip raw). intros Hdot H.
  unfold re_match in H. rewrite re_card_line_parts in H. cbn [run Chr] in H.
  rewrite Nat.eqb_refl in H. set (w := length line) in H.
  apply one_some in H as (d & t1 & Hline & _ & H).
  apply star_some in H as (rest & Hrest & H).
  apply one_some in H as (dot & s2 & -> & _ & H).
  assert (s2 `suffix_of` line) as Hs2.
  { rewrite Hline. apply suffix_cons_r. etrans; [|exact Hrest]. now apply suffix_cons_r. }
  destruct (lstrip_by_split is_space s2) as (sps & E2 & Hsps).
  destruct (lstrip_by is_space s2) as [|c0 r'] eqn:Er.
  - exfalso. rewrite app_nil_r in E2. subst sps.
    apply star_some in H as (rest' & Hrest' & H).
    apply one_some in H as (c' & t' & -> & _ & _).
    destruct Hs2 as [pre Hs2]. destruct Hrest' as [pre' ->].
    destruct (last (pre' ++ c' :: t')) as [e|] eqn:El.
    + assert (is_space e = true) as He.
      { apply last_Some_elem_of in El. rewrite Forall_forall in Hsps. now apply Hsps. }
      assert (last line = Some e) as Hl by (rewrite Hs2, last_app, El; reflexivity).
      apply strip_last in Hl. congruence.
    + apply last_None in El. now destruct pre'.
  - assert (is_space c0 = false) as Hc0.
    { destruct (lstrip_by_head is_space s2) as [E | (c & E & Hc)]; rewrite Er in E;
        [discriminate | now injection E as ->]. }
    assert (Forall (fun c => is_dot c = true) (c0 :: r')) as Hr.
    { eapply Forall_suffix; [|exact Hdot]. etrans; [|exact Hs2]. rewrite E2. now exists sps. }
    apply Forall_cons in Hr as [Hd0 Hr].
    destruct (star_lazy_total is_dot r' ∅
                (fun s4 g4 => run w re_annotations s4
                   (<[1%nat := take (length (c0 :: r') - length s4) (c0 :: r')]> g4)
                   (fun _ g => Some g)) Hr) as (zs & res & Hzs & Hlazy & Hres).
    { now rewrite (run_annotations w None None _ ltac:(discriminate) ltac:(discriminate)). }
    rewrite E2 in H. rewrite (star_take is_space sps (c0 :: r') ∅ _ res Hsps) in H.
    + injection H as <-.
      apply (run_some 1) in Hres as (s' & g' & _ & Hg' & [= <-]); [|reflexivity].
      eexists. split; [rewrite Hg'; apply lookup_insert_eq|].
      apply suffix_length in Hzs.
      replace (length (c0 :: r') - length zs) with (S (length r' - length zs))
        by (cbn [length]; lia).
      now apply (strip_head_nonempty _ c0).
    + now intros c [= <-].
    + rewrite one_hit by exact Hd0. exact Hlazy.
Qed.

(** X23: in a deck whose lines hold no newline, white space around them aside,
    every card has a name. *)
Theorem parsed_names_nonempty (lines : list str) :
  Forall (fun l => Forall (fun c => is_dot c = true) (strip l)) lines ->
  Forall (fun c => name c <> []) (parse_deck_new_format lines).
Proof.
  intros H. unfold parse_deck_new_format.
  assert (forall st, Forall (fun c => name c <> []) (fst st) ->
            Forall (fun c => name c <> []) (fst (foldl parse_line st lines))) as Hloop;
    [|apply Hloop; constructor].
  induction H as [|l lines Hl _ IH]; intros [cards cur] Hst; [exact Hst|].
  cbn [foldl]. apply IH. unfold parse_line.
  destruct (header (strip l)); [exact Hst|].
  destruct (re_match re_card_line (strip l)) as [g|] eqn:E; [|exact Hst].
  destruct cur as [t|]; [|exact Hst]. cbn [fst] in *.
  apply Forall_app. split; [exact Hst|]. constructor; [|constructor].
  destruct (re_match_card_line_name l g Hl E) as (n & Hn & Hne).
  unfold card_of_match. cbn [name]. now rewrite Hn.
Qed.

Lemma parsed_names_nonempty_witness :
  Forall (fun c => name c <> [])
         (parse_deck_new_format [py "TRAP CARDS:"; py "1.  (x)"; py "2. (3 copies)"]).
Proof.
  apply (parsed_names_nonempty [py "TRAP CARDS:"; py "1.  (x)"; py "2. (3 copies)"]).
  repeat constructor.
Defined.

(** ** More on clean_card_name *)

Lemma no_double_hyphen_lookup s i :
  no_double_hyphen s -> s !! i = Some "-"%char -> s !! S i <> Some "-"%char.
Proof.
  revert i. induction s as [|c s IH]; intros i Hs Hi; [discriminate Hi|].
  destruct Hs as [Hc Hs]. destruct i as [|i].
  - injection Hi as ->. cbn. intros E. destruct s as [|d s]; [discriminate E|].
    injection E as ->. specialize (Hc eq_refl "-"%char eq_refl). discriminate Hc.
  - cbn in *. now apply IH.
Qed.

Lemma rstrip_fixed_last a s : rstrip a s = s -> last s <> Some a.
Proof.
  unfold rstrip, rstrip_by. intros E Hl.
  apply (f_equal reverse) in E. rewrite reverse_involutive in E.
  rewrite <- head_reverse in Hl. destruct (reverse s) as [|c t]; [discriminate Hl|].
  injection Hl as ->. cbn [lstrip_by] in E.
  replace (is_chr a a) with true in E by (symmetry; now apply is_chr_eq).
  pose proof (lstrip_by_length (is_chr a) t) as Hle.
  apply (f_equal length) in E. cbn [length] in E. lia.
Qed.

(** X24: a cleaned name is made of word characters and hyphens, and each of
    its hyphens is followed by a character that is not a hyphen: no two
    hyphens in a row, none at the end. *)
Theorem clean_card_name_shape (s : str) :
  Forall (fun c => is_word c = true \/ c = "-"%char) (clean_card_name s)
  /\ forall i, clean_card_name s !! i = Some "-"%char ->
       exists c, clean_card_name s !! S i = Some c /\ c <> "-"%char.
Proof.
  destruct (clean_card_name_normal s) as (Hchars & Hnd & Hr). split.
  - eapply Forall_impl; [exact Hchars|]. intros c Hc. unfold name_char in Hc.
    apply orb_true_iff in Hc as [Hc | Hc]; [now left | right].
    symmetry. now apply is_chr_eq.
  - intros i Hi. destruct (clean_card_name s !! S i) as [c|] eqn:E.
    + exists c. split; [reflexivity|]. intros ->.
      now apply (no_double_hyphen_lookup _ i Hnd Hi).
    + exfalso. apply (rstrip_fixed_last _ _ Hr).
      apply lookup_ge_None in E. rewrite last_lookup.
      replace (pred (length (clean_card_name s))) with i; [exact Hi|].
      apply lookup_lt_Some in Hi. lia.
Qed.

(** Why the lines must hold no newline for every card to have a name:
    with a newline inside the identifier annotation the name is empty. *)
Example blank_name_with_newline :
  name <$> parse_deck_new_format [py "MONSTER CARDS:"; py "1. (EDOPro: a" ++ [nl] ++ py "b)"]
  = [[]].
Proof. vm_compute. reflexivity. Qed.
